(** * Snake: the three move-selection policies and the tick simulator

    A shallow embedding of [snakeGameAStar.py], [snakeGameHeuristic.py] and
    [snakeGameHybrid.py].  Cells are pairs of unbounded integers, the snake is
    a list (head first), barriers and visited sets are finite sets, the
    nonlocal variables of [main] become a record threaded through
    [gameLoop] and [resetGame], and the [random] module becomes an explicit
    sequence of raw draws.  Loops whose trip count is not structural take
    fuel; every claim that a loop returns is proved with a sufficient fuel. *)

From stdpp Require Import gmap list sorting.

Open Scope Z_scope.

#[local] Set Warnings "-clear-no-such-hyp".

(** ** Values shared by the three scripts *)

Abbreviation Cell := (Z * Z)%type.

Inductive Direction := UP | DOWN | LEFT | RIGHT.

#[global] Instance Direction_eq_dec : EqDecision Direction.
Proof. solve_decision. Defined.

(** The [moves] dictionary, in insertion order (the order of [.items()] and
    [.keys()]). *)
Definition moves : list (Direction * Cell) :=
  [(UP, (0, -1)); (DOWN, (0, 1)); (LEFT, (-1, 0)); (RIGHT, (1, 0))].

(** [moves[d]] *)
Definition offset (d : Direction) : Cell :=
  match d with
  | UP => (0, -1)
  | DOWN => (0, 1)
  | LEFT => (-1, 0)
  | RIGHT => (1, 0)
  end.

Definition addCell (c off : Cell) : Cell := (c.1 + off.1, c.2 + off.2).

Definition manhattanDistance (a b : Cell) : Z :=
  Z.abs (a.1 - b.1) + Z.abs (a.2 - b.2).

(** [0 <= x < gridSize[0] and 0 <= y < gridSize[1]] *)
Definition inBounds (gridSize : Cell) (c : Cell) : bool :=
  (0 <=? c.1) && (c.1 <? gridSize.1) && (0 <=? c.2) && (c.2 <? gridSize.2).

(** ** Exceptions, fuel and the random source *)

Inductive exn := IndexError | ValueError.

Inductive outcome (A : Type) : Type :=
| Returned (a : A)
| Raised (e : exn)
| OutOfFuel.
Arguments Returned {A} a.
Arguments Raised {A} e.
Arguments OutOfFuel {A}.

Definition obind {A B} (m : outcome A) (k : A → outcome B) : outcome B :=
  match m with
  | Returned a => k a
  | Raised e => Raised e
  | OutOfFuel => OutOfFuel
  end.

#[global] Instance outcome_bind : MBind outcome := λ A B k m, obind m k.

(** The process-wide generator: an infinite sequence of raw draws; every call
    into [random] consumes the first one. *)
Definition rng : Type := nat → nat.

Definition rngNext (g : rng) : rng := λ n, g (S n).

(** [random.randint(a, b)]: a value of [a..b], [ValueError] on an empty
    range. *)
Definition randint (g : rng) (a b : Z) : outcome (Z * rng) :=
  if b <? a then Raised ValueError
  else Returned (a + Z.of_nat (g 0%nat) `mod` (b - a + 1), rngNext g).

(** [random.choice(seq)]: an element of [seq], [IndexError] when empty. *)
Definition choice {A} (g : rng) (l : list A) : outcome (A * rng) :=
  match l with
  | [] => Raised IndexError
  | x :: _ => Returned (nth (g 0%nat `mod` length l)%nat l x, rngNext g)
  end.

(** [min(l, key=...)] and [max(l, key=...)] keep the first best element: a
    later element replaces the current one only when it is strictly
    better. *)
Definition firstBest {A} (better : A → A → bool) (x : A) (l : list A) : A :=
  fold_left (λ best y, if better y best then y else best) l x.

(** ** snakeGameHeuristic.py *)

Module Heuristic.

Definition isValid (snake : list Cell) (gridSize : Cell)
    (barriers : gset Cell) (coord : Cell) : bool :=
  inBounds gridSize coord
  && negb (bool_decide (coord ∈ removelast snake))
  && negb (bool_decide (coord ∈ barriers)).

(** The loop over [moves.items()] that fills [validMoves]. *)
Definition validMoves (head : Cell) (snake : list Cell) (orb gridSize : Cell)
    (barriers : gset Cell) : list (Direction * Z) :=
  omap (λ m : Direction * Cell,
          let newHead := addCell head m.2 in
          if isValid snake gridSize barriers newHead
          then Some (m.1, manhattanDistance newHead orb)
          else None) moves.

Definition heuristicPolicy (g : rng) (snake : list Cell) (orb gridSize : Cell)
    (barriers : gset Cell) : outcome (Direction * rng) :=
  match snake with
  | [] => Raised IndexError
  | head :: _ =>
      match validMoves head snake orb gridSize barriers with
      | v :: vs =>
          Returned ((firstBest (λ x y, x.2 <? y.2) v vs).1, g)
      | [] => choice g [UP; DOWN; LEFT; RIGHT]
      end
  end.

End Heuristic.

(** ** snakeGameAStar.py *)

(** Every cell of the grid, column by column. *)
Definition gridCells (gridSize : Cell) : list Cell :=
  x ← seqZ 0 gridSize.1; (λ y, (x, y)) <$> seqZ 0 gridSize.2.

Module AStar.

Definition isValid (snake : list Cell) (gridSize : Cell)
    (barriers : gset Cell) (coord : Cell) : bool :=
  inBounds gridSize coord
  && negb (bool_decide (coord ∈ snake))
  && negb (bool_decide (coord ∈ barriers)).

(** An [openSet] tuple: (estimated total cost, gScore, cell, path). *)
Abbreviation Entry := (Z * Z * Cell * list Direction)%type.

(** The sort key [x[0]]. *)
Definition fScore (e : Entry) : Z := e.1.1.1.

Definition entryCell (e : Entry) : Cell := e.1.2.

(** [openSet.sort(key=lambda x: x[0])] is a stable sort: an entry is placed
    before the entries that followed it and have the same key. *)
Fixpoint insertByKey (e : Entry) (l : list Entry) : list Entry :=
  match l with
  | [] => [e]
  | e' :: l' =>
      if fScore e <=? fScore e' then e :: l else e' :: insertByKey e l'
  end.

Definition sortByKey (l : list Entry) : list Entry := foldr insertByKey [] l.

(** The [for direction, (dx, dy) in moves.items()] loop: the tuples it
    appends to [openSet], in order. *)
Definition expand (snake : list Cell) (orb gridSize : Cell)
    (barriers visited : gset Cell) (gScore : Z) (current : Cell)
    (path : list Direction) : list Entry :=
  omap (λ m : Direction * Cell,
          let neighbor := addCell current m.2 in
          if isValid snake gridSize barriers neighbor
             && negb (bool_decide (neighbor ∈ visited))
          then Some (gScore + 1 + manhattanDistance neighbor orb, gScore + 1,
                     neighbor, path ++ [m.1])
          else None) moves.

(** [path[0] if path else 'UP'] *)
Definition firstStep (path : list Direction) : Direction :=
  match path with
  | d :: _ => d
  | [] => UP
  end.

(** The [while openSet] loop; one unit of fuel per test of the condition. *)
Fixpoint search (fuel : nat) (g : rng) (snake : list Cell) (orb gridSize : Cell)
    (barriers : gset Cell) (openSet : list Entry) (visited : gset Cell)
    : outcome (Direction * rng) :=
  match fuel with
  | O => OutOfFuel
  | S fuel' =>
      match openSet with
      | [] => choice g (moves.*1)
      | _ :: _ =>
          match sortByKey openSet with
          | [] => Raised IndexError
          | (_, gScore, current, path) :: rest =>
              if bool_decide (current = orb) then Returned (firstStep path, g)
              else if bool_decide (current ∈ visited) then
                search fuel' g snake orb gridSize barriers rest visited
              else
                let visited' := {[current]} ∪ visited in
                search fuel' g snake orb gridSize barriers
                  (rest ++ expand snake orb gridSize barriers visited'
                             gScore current path)
                  visited'
          end
      end
  end.

Definition aStarPolicyFuel (fuel : nat) (g : rng) (snake : list Cell)
    (orb gridSize : Cell) (barriers : gset Cell) : outcome (Direction * rng) :=
  match snake with
  | [] => Raised IndexError
  | head :: _ =>
      search fuel g snake orb gridSize barriers
        [(manhattanDistance head orb, 0, head, [])] ∅
  end.

(** The number of cells that pass [isValid]. *)
Definition freeCells (snake : list Cell) (gridSize : Cell)
    (barriers : gset Cell) : nat :=
  length (filter (λ c, isValid snake gridSize barriers c = true)
            (gridCells gridSize)).

(** Loop tests that always suffice: the head and every free cell are
    expanded at most once, an expansion appends at most four tuples. *)
Definition searchFuel (snake : list Cell) (gridSize : Cell)
    (barriers : gset Cell) : nat :=
  (4 * (freeCells snake gridSize barriers + 1) + 2)%nat.

Definition aStarPolicy (g : rng) (snake : list Cell) (orb gridSize : Cell)
    (barriers : gset Cell) : outcome (Direction * rng) :=
  aStarPolicyFuel (searchFuel snake gridSize barriers) g snake orb gridSize
    barriers.

End AStar.

(** ** snakeGameHybrid.py *)

Module Hybrid.

Definition isValid (snake : list Cell) (gridSize : Cell)
    (barriers : gset Cell) (coord : Cell) : bool :=
  inBounds gridSize coord
  && negb (bool_decide (coord ∈ removelast snake))
  && negb (bool_decide (coord ∈ barriers)).

(** One turn of [for dx, dy in [(0, -1), (0, 1), (-1, 0), (1, 0)]] on the
    pair of [visited] and [queue]. *)
Definition floodVisit (gridSize : Cell) (x y : Z)
    (acc : gset Cell * list Cell) (d : Cell) : gset Cell * list Cell :=
  let neighbor := (x + d.1, y + d.2) in
  if inBounds gridSize neighbor && negb (bool_decide (neighbor ∈ acc.1))
  then ({[neighbor]} ∪ acc.1, acc.2 ++ [neighbor])
  else acc.

(** The [while queue] loop; one unit of fuel per test of the condition. *)
Fixpoint floodLoop (fuel : nat) (gridSize : Cell) (queue : list Cell)
    (visited : gset Cell) (area : Z) : outcome Z :=
  match fuel with
  | O => OutOfFuel
  | S fuel' =>
      match queue with
      | [] => Returned area
      | (x, y) :: queue' =>
          let acc :=
            foldl (floodVisit gridSize x y) (visited, queue')
              [(0, -1); (0, 1); (-1, 0); (1, 0)] in
          floodLoop fuel' gridSize acc.2 acc.1 (area + 1)
      end
  end.

Definition floodFillAreaFuel (fuel : nat) (snake : list Cell)
    (barriers : gset Cell) (gridSize : Cell) (start : Cell) : outcome Z :=
  floodLoop fuel gridSize [start]
    ({[start]} ∪ (list_to_set (removelast snake) ∪ barriers)) 0.

(** Loop tests that always suffice: the start cell and every cell of the
    grid are queued at most once. *)
Definition floodFuel (gridSize : Cell) : nat :=
  (length (gridCells gridSize) + 2)%nat.

Definition floodFillArea (snake : list Cell) (barriers : gset Cell)
    (gridSize : Cell) (start : Cell) : outcome Z :=
  floodFillAreaFuel (floodFuel gridSize) snake barriers gridSize start.

(** A [validMoves] tuple:
    (direction, proximityScore, areaScore, tailDistance). *)
Abbreviation Move := (Direction * Z * Z * Z)%type.

(** [snake[-1] if len(snake) > 1 else None] *)
Definition tailOf (snake : list Cell) : option Cell :=
  if (1 <? length snake)%nat then last snake else None.

(** [manhattanDistance(newHead, tail) if tail else 0]; a tuple of two
    integers is never falsy. *)
Definition tailDistanceOf (tail : option Cell) (newHead : Cell) : Z :=
  match tail with
  | Some t => manhattanDistance newHead t
  | None => 0
  end.

(** The loop over [moves.items()] that fills [validMoves]. *)
Fixpoint scoreMoves (head : Cell) (snake : list Cell) (orb gridSize : Cell)
    (barriers : gset Cell) (ms : list (Direction * Cell))
    : outcome (list Move) :=
  match ms with
  | [] => Returned []
  | (direction, off) :: ms' =>
      let newHead := addCell head off in
      if isValid snake gridSize barriers newHead then
        let proximityScore := manhattanDistance newHead orb in
        areaScore ← floodFillArea snake barriers gridSize newHead;
        let tailDistance := tailDistanceOf (tailOf snake) newHead in
        rest ← scoreMoves head snake orb gridSize barriers ms';
        Returned ((direction, proximityScore, areaScore, tailDistance) :: rest)
      else scoreMoves head snake orb gridSize barriers ms'
  end.

(** The key [(x[2], x[3], -x[1])]. *)
Definition moveKey (m : Move) : Z * Z * Z := (m.1.2, m.2, - m.1.1.2).

(** Python's [<] on triples of integers. *)
Definition lexLtb (a b : Z * Z * Z) : bool :=
  (a.1.1 <? b.1.1)
  || ((a.1.1 =? b.1.1)
      && ((a.1.2 <? b.1.2) || ((a.1.2 =? b.1.2) && (a.2 <? b.2)))).

Definition hybridPolicy (g : rng) (snake : list Cell) (orb gridSize : Cell)
    (barriers : gset Cell) : outcome (Direction * rng) :=
  match snake with
  | [] => Raised IndexError
  | head :: _ =>
      validMoves ← scoreMoves head snake orb gridSize barriers moves;
      match validMoves with
      | v :: vs =>
          Returned
            ((firstBest (λ x y, lexLtb (moveKey y) (moveKey x)) v vs).1.1.1, g)
      | [] => choice g [UP; DOWN; LEFT; RIGHT]
      end
  end.

End Hybrid.

(** ** The simulator shared by the three scripts ([main]) *)

Record GameState := mkState {
  snake : list Cell;
  orb : Cell;
  barriers : gset Cell;
  score : Z;
  highscore : Z
}.

(** What [gameLoop] schedules before it returns: itself after 200 ms, or
    [resetGame] after 2 s. *)
Inductive Scheduled := NextTick | Reset.

Definition gridSize : Cell := (20, 20).

Definition startSnake : list Cell := [(5, 5); (5, 6); (5, 7)].

(** [int(0.25 * totalCells)]: the product is exact in double precision and
    [int] truncates towards zero. *)
Definition maxBarrierCellsOf (gridSize : Cell) : Z :=
  Z.quot (gridSize.1 * gridSize.2) 4.

Definition barrierFull (gridSize : Cell) (barriers : gset Cell) : bool :=
  maxBarrierCellsOf gridSize <=? Z.of_nat (size barriers).

(** The [for j] loop of [generateBarriers], with its [break]. *)
Fixpoint barrierRow (gridSize : Cell) (snake : list Cell) (orb : Cell)
    (x startY : Z) (jRange : list Z) (barriers : gset Cell) : gset Cell :=
  match jRange with
  | [] => barriers
  | j :: jRange' =>
      let c := (x, startY + j) in
      let barriers' :=
        if inBounds gridSize c && negb (bool_decide (c ∈ snake))
           && negb (bool_decide (c = orb))
        then {[c]} ∪ barriers else barriers in
      if barrierFull gridSize barriers' then barriers'
      else barrierRow gridSize snake orb x startY jRange' barriers'
  end.

(** The [for i] loop of [generateBarriers], with its [break]. *)
Fixpoint barrierBlock (gridSize : Cell) (snake : list Cell) (orb : Cell)
    (startX startY : Z) (iRange jRange : list Z) (barriers : gset Cell) : gset Cell :=
  match iRange with
  | [] => barriers
  | i :: iRange' =>
      let barriers' :=
        barrierRow gridSize snake orb (startX + i) startY jRange barriers in
      if barrierFull gridSize barriers' then barriers'
      else barrierBlock gridSize snake orb startX startY iRange' jRange barriers'
  end.

Fixpoint barrierLoop (fuel : nat) (g : rng) (gridSize : Cell)
    (snake : list Cell) (orb : Cell) (barriers : gset Cell)
    : outcome (gset Cell * rng) :=
  if barrierFull gridSize barriers then Returned (barriers, g)
  else
    match fuel with
    | O => OutOfFuel
    | S fuel' =>
        '(barrierSize, g1) ← randint g 1 3;
        '(startX, g2) ← randint g1 0 (gridSize.1 - 1);
        '(startY, g3) ← randint g2 0 (gridSize.2 - 1);
        let range := seqZ 0 barrierSize in
        barrierLoop fuel' g3 gridSize snake orb
          (barrierBlock gridSize snake orb startX startY range range barriers)
    end.

Definition generateBarriers (fuel : nat) (g : rng) (gridSize : Cell)
    (snake : list Cell) (orb : Cell) : outcome (gset Cell * rng) :=
  barrierLoop fuel g gridSize snake orb ∅.

(** [generateOrb]: rejection sampling, one candidate per unit of fuel. *)
Fixpoint generateOrb (fuel : nat) (g : rng) (gridSize : Cell)
    (snake : list Cell) (barriers : gset Cell) : outcome (Cell * rng) :=
  match fuel with
  | O => OutOfFuel
  | S fuel' =>
      '(x, g1) ← randint g 0 (gridSize.1 - 1);
      '(y, g2) ← randint g1 0 (gridSize.2 - 1);
      let orb := (x, y) in
      if negb (bool_decide (orb ∈ snake)) && negb (bool_decide (orb ∈ barriers))
      then Returned (orb, g2)
      else generateOrb fuel' g2 gridSize snake barriers
  end.

(** [snake[-1]] *)
Definition lastCell (snake : list Cell) : outcome Cell :=
  match last snake with
  | Some c => Returned c
  | None => Raised IndexError
  end.

Section Simulator.

(** The policy the script calls: [aStarPolicy], [heuristicPolicy] or
    [hybridPolicy]. *)
Variable policy :
  rng → list Cell → Cell → Cell → gset Cell → outcome (Direction * rng).

Definition gameLoop (fuel : nat) (g : rng) (st : GameState)
    : outcome (Scheduled * GameState * rng) :=
  '(nextMove, g1) ← policy g (snake st) (orb st) gridSize (barriers st);
  match snake st with
  | [] => Raised IndexError
  | head :: _ =>
      let newHead := addCell head (offset nextMove) in
      let score1 := score st - 1 in
      if bool_decide (newHead ∈ snake st)
         || bool_decide (newHead ∈ barriers st)
      then
        Returned (Reset,
                  mkState (snake st) (orb st) (barriers st) score1
                    (Z.max (highscore st) score1), g1)
      else
        let snake1 := newHead :: removelast (snake st) in
        if bool_decide (newHead = orb st) then
          'tl ← lastCell snake1;
          let snake2 := snake1 ++ [tl] in
          '(orb2, g2) ← generateOrb fuel g1 gridSize snake2 (barriers st);
          Returned (NextTick,
                    mkState snake2 orb2 (barriers st) (score1 + 100)
                      (highscore st), g2)
        else
          Returned (NextTick,
                    mkState snake1 (orb st) (barriers st) score1
                      (highscore st), g1)
  end.

(** The assignments of [resetGame], up to its call of [gameLoop]. *)
Definition resetState (fuel : nat) (g : rng) (st : GameState)
    : outcome (GameState * rng) :=
  let snake0 := startSnake in
  '(barriers0, g1) ← generateBarriers fuel g gridSize snake0 (0, 0);
  '(orb0, g2) ← generateOrb fuel g1 gridSize snake0 barriers0;
  Returned (mkState snake0 orb0 barriers0 0 (highscore st), g2).

Definition resetGame (fuel : nat) (g : rng) (st : GameState)
    : outcome (Scheduled * GameState * rng) :=
  '(st0, g0) ← resetState fuel g st;
  gameLoop fuel g0 st0.

(** [k] callbacks in a row, each the one its predecessor scheduled with
    [window.after]; [next] is the one scheduled first. *)
Fixpoint run (k fuel : nat) (g : rng) (st : GameState) (next : Scheduled)
    : outcome (Scheduled * GameState * rng) :=
  match k with
  | O => Returned (next, st, g)
  | S k' =>
      '(next1, st1, g1) ←
        match next with
        | NextTick => gameLoop fuel g st
        | Reset => resetGame fuel g st
        end;
      run k' fuel g1 st1 next1
  end.

End Simulator.

(** ** The draws of [generateOrb] *)

(** The [k]-th cell that [generateOrb] tries. *)
Definition orbCandidate (g : rng) (gridSize : Cell) (k : nat) : Cell :=
  (Z.of_nat (g (2 * k)%nat) `mod` gridSize.1,
   Z.of_nat (g (2 * k + 1)%nat) `mod` gridSize.2).

(** ** The order on ranking keys *)

(** Python's [<=] on triples of integers. *)
Definition lexLe (a b : Z * Z * Z) : Prop :=
  a.1.1 < b.1.1
  ∨ (a.1.1 = b.1.1 ∧ (a.1.2 < b.1.2 ∨ (a.1.2 = b.1.2 ∧ a.2 ≤ b.2))).

(** ** Reachability on the grid *)

(** The cells that can be reached from [start] by steps to a 4-neighbour
    that passes [free]; [start] itself is reached by the empty walk. *)
Inductive reach (free : Cell → bool) (start : Cell) : Cell → Prop :=
| reach_start : reach free start start
| reach_step c d :
    reach free start c →
    free (addCell c (offset d)) = true →
    reach free start (addCell c (offset d)).

(** The loop invariant of [floodFillArea]: [counted] holds the cells already
    taken from the queue. *)
Record floodInv (free : Cell → bool) (blocked : gset Cell)
    (gridSize start : Cell) (queue : list Cell) (visited counted : gset Cell)
    : Prop := {
  flood_nodup : NoDup queue;
  flood_fresh : ∀ c, c ∈ queue → c ∉ counted;
  flood_visited :
    ∀ c, c ∈ visited ↔ c ∈ blocked ∨ c ∈ counted ∨ c ∈ queue;
  flood_sound : ∀ c, c ∈ counted ∨ c ∈ queue → reach free start c;
  flood_closed :
    ∀ c d, c ∈ counted → free (addCell c (offset d)) = true →
           addCell c (offset d) ∈ counted ∨ addCell c (offset d) ∈ queue;
  flood_bounded :
    ∀ c, c ∈ counted ∨ c ∈ queue → c = start ∨ inBounds gridSize c = true;
  flood_start : start ∈ counted ∨ start ∈ queue
}.

(** ** Invariants of the A* loop *)

(** Every cell the loop can expand is the head or passes [valid]. *)
Record searchInv (valid : Cell → bool) (head : Cell)
    (openSet : list AStar.Entry) (visited : gset Cell) : Prop := {
  search_open :
    ∀ e, e ∈ openSet →
         AStar.entryCell e = head ∨ valid (AStar.entryCell e) = true;
  search_visited : ∀ c, c ∈ visited → c = head ∨ valid c = true
}.

(** The cells the loop can expand. *)
Definition expandable (valid : Cell → bool) (gridSize head : Cell)
    : gset Cell :=
  {[head]} ∪ list_to_set (filter (λ c, valid c = true) (gridCells gridSize)).

(** ** Clear shortest paths *)

(** The cell a path of directions leads to. *)
Definition walk (c : Cell) (path : list Direction) : Cell :=
  foldl (λ c d, addCell c (offset d)) c path.

(** [c] lies on a shortest grid path from [a] to [b]. *)
Definition onShortestPath (a b c : Cell) : Prop :=
  manhattanDistance a c + manhattanDistance c b = manhattanDistance a b.

(** Head and orb are distinct cells of the grid and, the head apart, no cell
    of a shortest path between them is a snake cell or a barrier. *)
Definition clearPaths (gridSize : Cell) (snake : list Cell) (orb : Cell)
    (barriers : gset Cell) (head : Cell) : Prop :=
  inBounds gridSize head = true
  ∧ inBounds gridSize orb = true
  ∧ head ≠ orb
  ∧ ∀ c, onShortestPath head orb c → c ≠ head →
         (c ∉ snake) ∧ (c ∉ barriers).

(** The invariant of the A* loop on such an input: every open tuple records
    a walk from the head, the cells expanded so far lie on shortest paths,
    and each of their neighbours nearer to the orb is expanded or open with
    the least possible estimate. *)
Record optInv (head orb : Cell) (openSet : list AStar.Entry)
    (visited : gset Cell) : Prop := {
  opt_entry :
    ∀ f gS c path, (f, gS, c, path) ∈ openSet →
      f = gS + manhattanDistance c orb
      ∧ gS = Z.of_nat (length path)
      ∧ c = walk head path;
  opt_orb : orb ∉ visited;
  opt_visited : ∀ v, v ∈ visited → onShortestPath head orb v;
  opt_head :
    head ∈ visited ∨ (manhattanDistance head orb, 0, head, []) ∈ openSet;
  opt_closer :
    ∀ v d, v ∈ visited →
      manhattanDistance (addCell v (offset d)) orb
        = manhattanDistance v orb - 1 →
      addCell v (offset d) ∈ visited
      ∨ ∃ e, e ∈ openSet
             ∧ AStar.entryCell e = addCell v (offset d)
             ∧ AStar.fScore e = manhattanDistance head orb
}.

(** ** Well-formed states *)

(** Consecutive cells are grid neighbours. *)
Fixpoint chained (l : list Cell) : bool :=
  match l with
  | a :: (b :: _) as l' => (manhattanDistance a b =? 1) && chained l'
  | _ => true
  end.

(** The invariant the simulator maintains: a non-empty, connected,
    duplicate-free snake inside the grid, barriers inside the grid and off
    the snake, and an orb inside the grid on a free cell. *)
Definition wellFormed (gridSize : Cell) (st : GameState) : bool :=
  bool_decide (snake st ≠ [])
  && forallb (inBounds gridSize) (snake st)
  && chained (snake st)
  && bool_decide (NoDup (snake st))
  && forallb (inBounds gridSize) (elements (barriers st))
  && forallb (λ c, negb (bool_decide (c ∈ barriers st))) (snake st)
  && inBounds gridSize (orb st)
  && negb (bool_decide (orb st ∈ snake st))
  && negb (bool_decide (orb st ∈ barriers st)).

(** ** Sample inputs *)

(** A generator whose draws are 0, 1, 2, ... *)
Definition countingDraws : rng := λ n, n.

(** A generator that makes [generateBarriers] lay 3x3 blocks side by side:
    the draws come in triples (size, column, row). *)
Definition tilingDraws : rng :=
  λ n, match (n `mod` 3)%nat with
       | O => 2%nat
       | S O => (3 * ((n `div` 3) `mod` 7))%nat
       | _ => (3 * ((n `div` 3) `div` 7))%nat
       end.

(** A snake coiled in a 2x2 square: the head at (1,1) is next to the tail at
    (1,2). *)
Definition coiledSnake : list Cell := [(1, 1); (2, 1); (2, 2); (1, 2)].

(** The coiled snake with the orb three cells below its tail. *)
Definition coiledState : GameState := mkState coiledSnake (1, 5) ∅ 0 0.

(** The coiled snake walled in: every neighbour of the head is a barrier or
    a body cell. *)
Definition walledBarriers : gset Cell :=
  list_to_set [(0, 1); (1, 0)].

(** The coiled snake in a corner: barriers close the cell above the head and
    make the cell to its left a one-cell pocket. *)
Definition pocketState : GameState :=
  mkState coiledSnake (10, 0) (list_to_set [(0, 0); (0, 2); (1, 0)]) 0 0.

(** The start of an episode with the orb two columns right and two rows up
    of the head, and no barriers. *)
Definition openState : GameState := mkState startSnake (7, 3) ∅ 0 0.

(** A snake winding through the fifteen upper rows of the grid, from (1,0)
    along row 0 and then back and forth down to (19,14). *)
Definition windingSnake : list Cell :=
  ((λ x, (x, 0)) <$> seqZ 1 19)
  ++ (y ← seqZ 1 14; (λ x, (if Z.odd y then 19 - x else x, y)) <$> seqZ 0 20).

(** The five bottom rows of the grid: a quarter of its cells. *)
Definition bottomRows : gset Cell :=
  list_to_set (x ← seqZ 0 20; (λ y, (x, y)) <$> seqZ 15 5).

(** A board that is all but full: barriers on the bottom rows, the winding
    snake with its tail cell doubled by the growth of the tick before, and
    the orb on the one cell left, next to the head. *)
Definition fullBoardState : GameState :=
  mkState (windingSnake ++ [(19, 14)]) (0, 0) bottomRows 0 0.


(** ** What the simulator keeps *)

(** Consecutive cells coincide or are grid neighbours (a grown snake holds
    its tail cell twice). *)
Fixpoint linked (l : list Cell) : bool :=
  match l with
  | a :: (b :: _) as l' => (manhattanDistance a b <=? 1) && linked l'
  | _ => true
  end.

(** A non-empty linked snake off the barriers, and an orb off both. *)
Definition consistent (st : GameState) : Prop :=
  snake st ≠ []
  ∧ linked (snake st) = true
  ∧ (∀ c, c ∈ snake st → c ∉ barriers st)
  ∧ (orb st ∉ snake st)
  ∧ (orb st ∉ barriers st).

(** A snake in the top left corner with a barrier below its head: no
    neighbour of the head is a free cell of the grid. *)
Definition corneredState : GameState :=
  mkState [(0, 0); (1, 0); (1, 1)] (5, 5) {[(0, 1)]} 0 0.

(** ** Walks over valid cells *)

(** Every cell a path visits after its start passes [valid]. *)
Fixpoint validWalk (valid : Cell → bool) (c : Cell) (path : list Direction)
    : bool :=
  match path with
  | [] => true
  | d :: path' =>
      valid (addCell c (offset d)) && validWalk valid (addCell c (offset d)) path'
  end.

(** The [gScore] field of an [openSet] tuple. *)
Definition entryGScore (e : AStar.Entry) : Z := e.1.1.2.

(** The invariant of the A* loop on any input: every open tuple records a
    walk over valid cells from the head; every expanded cell was reached by
    a shortest such walk, and each of its valid neighbours is expanded or
    open with a gScore at most one more. *)
Record starInv (valid : Cell → bool) (head orb : Cell)
    (openSet : list AStar.Entry) (visited : gset Cell) : Prop := {
  star_entry :
    ∀ f gS c path, (f, gS, c, path) ∈ openSet →
      f = gS + manhattanDistance c orb
      ∧ gS = Z.of_nat (length path)
      ∧ c = walk head path
      ∧ validWalk valid head path = true;
  star_orb : orb ∉ visited;
  star_head :
    head ∈ visited ∨ (manhattanDistance head orb, 0, head, []) ∈ openSet;
  star_closed :
    ∀ v, v ∈ visited →
      ∃ p, walk head p = v
           ∧ validWalk valid head p = true
           ∧ (∀ q, walk head q = v → validWalk valid head q = true →
                   (length p ≤ length q)%nat)
           ∧ ∀ d, valid (addCell v (offset d)) = true →
                  addCell v (offset d) ∈ visited
                  ∨ ∃ e, e ∈ openSet
                         ∧ AStar.entryCell e = addCell v (offset d)
                         ∧ entryGScore e ≤ Z.of_nat (length p) + 1
}.

(** ** The order of the [moves] dictionary *)


(** * Properties of the simulator *)

Lemma bind_Returned {A B} (m : outcome A) (k : A → outcome B) a :
  m = Returned a → (m ≫= k) = k a.
Proof. by intros ->. Qed.

Lemma inBounds_spec (gridSize c : Cell) :
  inBounds gridSize c = true
  ↔ 0 ≤ c.1 < gridSize.1 ∧ 0 ≤ c.2 < gridSize.2.
Proof.
  unfold inBounds.
  rewrite !andb_true_iff, !Z.leb_le, !Z.ltb_lt. lia.
Qed.

Lemma elem_of_gridCells (gridSize c : Cell) :
  c ∈ gridCells gridSize ↔ inBounds gridSize c = true.
Proof.
  unfold gridCells. rewrite inBounds_spec, list_elem_of_bind. split.
  - intros (x & Hy & Hx). apply list_elem_of_fmap in Hy as (y & -> & Hy).
    apply elem_of_seqZ in Hx, Hy. cbn. lia.
  - intros [Hx Hy]. exists c.1. split.
    + apply list_elem_of_fmap. exists c.2. split; [by destruct c|].
      apply elem_of_seqZ. lia.
    + apply elem_of_seqZ. lia.
Qed.

Lemma randint_from_0 g n :
  0 < n → randint g 0 (n - 1) = Returned ((Z.of_nat (g 0%nat)) `mod` n, rngNext g).
Proof.
  intros Hn. unfold randint.
  destruct (Z.ltb_spec (n - 1) 0); [lia|].
  do 2 f_equal. rewrite Z.add_0_l. f_equal. lia.
Qed.

Lemma orbCandidate_next g (gridSize : Cell) k :
  orbCandidate (rngNext (rngNext g)) gridSize k = orbCandidate g gridSize (S k).
Proof.
  unfold orbCandidate, rngNext.
  by replace (2 * S k)%nat with (S (S (2 * k))) by lia.
Qed.

Lemma generateOrb_returns fuel : ∀ g (gridSize : Cell) snake barriers k,
  0 < gridSize.1 → 0 < gridSize.2 → (k < fuel)%nat →
  orbCandidate g gridSize k ∉ snake →
  orbCandidate g gridSize k ∉ barriers →
  ∃ c g', generateOrb fuel g gridSize snake barriers = Returned (c, g')
          ∧ (c ∉ snake) ∧ (c ∉ barriers).
Proof.
  induction fuel as [|fuel IH]; intros g gs sn bs k Hw Hh Hk Hs Hb; [lia|].
  cbn [generateOrb].
  rewrite (bind_Returned _ _ _ (randint_from_0 g _ Hw)). cbn beta iota.
  rewrite (bind_Returned _ _ _ (randint_from_0 (rngNext g) _ Hh)).
  cbn beta iota zeta.
  change (Z.of_nat (g 0%nat) `mod` gs.1, Z.of_nat (rngNext g 0%nat) `mod` gs.2)
    with (orbCandidate g gs 0).
  destruct (decide (orbCandidate g gs 0 ∈ sn ∨ orbCandidate g gs 0 ∈ bs))
    as [Hocc|Hfree].
  - assert (negb (bool_decide (orbCandidate g gs 0 ∈ sn))
            && negb (bool_decide (orbCandidate g gs 0 ∈ bs)) = false) as ->.
    { destruct Hocc as [Hc|Hc]; rewrite (bool_decide_eq_true_2 _ Hc); cbn;
        [done | apply andb_false_r]. }
    destruct k as [|k]; [tauto|].
    apply (IH _ gs sn bs k); [done | done | lia | | ];
      by rewrite orbCandidate_next.
  - assert ((orbCandidate g gs 0 ∉ sn) ∧ (orbCandidate g gs 0 ∉ bs)) as [H1 H2]
      by tauto.
    rewrite (bool_decide_eq_false_2 _ H1), (bool_decide_eq_false_2 _ H2).
    cbn. eauto.
Qed.

Lemma length_removelast {A} (l : list A) :
  length (removelast l) = pred (length l).
Proof.
  induction l as [|x [|y l] IH]; [done|done|].
  change (removelast (x :: y :: l)) with (x :: removelast (y :: l)).
  cbn [length]. rewrite IH. done.
Qed.

(** C3: a tick whose new head lies in the snake (tail included) or in the
    barriers takes the movement cost, schedules the reset with
    [highscore = max highscore (score - 1)], and leaves snake, orb and
    barriers as they were. *)
Theorem gameLoop_collision policy fuel g st head body nextMove g1 :
  snake st = head :: body →
  policy g (snake st) (orb st) gridSize (barriers st)
    = Returned (nextMove, g1) →
  addCell head (offset nextMove) ∈ snake st
    ∨ addCell head (offset nextMove) ∈ barriers st →
  gameLoop policy fuel g st
    = Returned (Reset,
                mkState (snake st) (orb st) (barriers st) (score st - 1)
                  (Z.max (highscore st) (score st - 1)), g1).
Proof.
  intros Hsn Hpol Hcol. unfold gameLoop.
  rewrite (bind_Returned _ _ _ Hpol). cbn beta iota. rewrite Hsn.
  rewrite <- Hsn.
  destruct Hcol as [Hc|Hc].
  - by rewrite (bool_decide_eq_true_2 _ Hc).
  - rewrite (bool_decide_eq_true_2 _ Hc).
    by rewrite orb_true_r.
Qed.

Lemma gameLoop_collision_witness :
  gameLoop Heuristic.heuristicPolicy 0 countingDraws
    (mkState coiledSnake (1, 5) ∅ 7 3)
  = Returned (Reset, mkState coiledSnake (1, 5) ∅ 6 6, countingDraws).
Proof.
  apply (gameLoop_collision Heuristic.heuristicPolicy 0 countingDraws
           (mkState coiledSnake (1, 5) ∅ 7 3) (1, 1)
           [(2, 1); (2, 2); (1, 2)] DOWN countingDraws).
  - reflexivity.
  - vm_compute. reflexivity.
  - left. apply (bool_decide_unpack _). vm_compute. exact I.
Defined.

Lemma last_cons_is_Some {A} (x : A) (l : list A) : is_Some (last (x :: l)).
Proof. revert x. induction l as [|y l IH]; intros x; [by eexists|apply IH]. Qed.

(** What a tick does when the new head hits nothing and is on the orb: all
    that is left open is the outcome of [generateOrb]. *)
Lemma gameLoop_on_orb policy fuel g st head body nextMove g1 :
  snake st = head :: body →
  policy g (snake st) (orb st) gridSize (barriers st)
    = Returned (nextMove, g1) →
  addCell head (offset nextMove) ∉ snake st →
  addCell head (offset nextMove) ∉ barriers st →
  addCell head (offset nextMove) = orb st →
  ∃ tl,
    last (orb st :: removelast (snake st)) = Some tl
    ∧ gameLoop policy fuel g st
      = generateOrb fuel g1 gridSize
          ((orb st :: removelast (snake st)) ++ [tl]) (barriers st)
        ≫= λ '(orb2, g2),
             Returned (NextTick,
                       mkState ((orb st :: removelast (snake st)) ++ [tl])
                         orb2 (barriers st) (score st - 1 + 100)
                         (highscore st), g2).
Proof.
  intros Hsn Hpol Hns Hnb Horb. unfold gameLoop.
  rewrite (bind_Returned _ _ _ Hpol). cbn beta iota. rewrite Hsn.
  rewrite <- Hsn.
  rewrite (bool_decide_eq_false_2 _ Hns), (bool_decide_eq_false_2 _ Hnb).
  cbn [orb negb]. rewrite (bool_decide_eq_true_2 _ Horb), Horb.
  destruct (last_cons_is_Some (orb st) (removelast (snake st))) as [tl Htl].
  exists tl. split; [done|]. unfold lastCell. by rewrite Htl.
Qed.

Lemma generateOrb_no_free (gridSize : Cell) snake barriers :
  0 < gridSize.1 → 0 < gridSize.2 →
  (∀ c, inBounds gridSize c = true → c ∈ snake ∨ c ∈ barriers) →
  ∀ fuel g, generateOrb fuel g gridSize snake barriers = OutOfFuel.
Proof.
  intros Hw Hh Hfull. induction fuel as [|fuel IH]; intros g; [done|].
  cbn [generateOrb].
  rewrite (bind_Returned _ _ _ (randint_from_0 g _ Hw)). cbn beta iota.
  rewrite (bind_Returned _ _ _ (randint_from_0 (rngNext g) _ Hh)).
  cbn beta iota zeta.
  change (Z.of_nat (g 0%nat) `mod` gridSize.1,
          Z.of_nat (rngNext g 0%nat) `mod` gridSize.2)
    with (orbCandidate g gridSize 0).
  assert (Hin : inBounds gridSize (orbCandidate g gridSize 0) = true).
  { apply inBounds_spec. unfold orbCandidate. cbn [fst snd].
    pose proof (Z.mod_pos_bound (Z.of_nat (g (2 * 0)%nat)) gridSize.1 Hw).
    pose proof (Z.mod_pos_bound (Z.of_nat (g (2 * 0 + 1)%nat)) gridSize.2 Hh).
    lia. }
  destruct (Hfull _ Hin) as [Hc|Hc]; rewrite (bool_decide_eq_true_2 _ Hc);
    cbn; [|rewrite andb_false_r]; apply IH.
Qed.

(** C2 fails on a full board: the new head is on the orb and hits nothing,
    but the grown snake and the barriers leave no cell for the new orb, and
    the tick never returns. *)
Lemma full_board_tick_never_returns :
  forallb (inBounds gridSize) (snake fullBoardState) = true
  ∧ chained (removelast (snake fullBoardState)) = true
  ∧ NoDup (removelast (snake fullBoardState))
  ∧ size (barriers fullBoardState) = 100%nat
  ∧ forallb (inBounds gridSize) (elements (barriers fullBoardState)) = true
  ∧ forallb (λ c, negb (bool_decide (c ∈ barriers fullBoardState)))
      (snake fullBoardState) = true
  ∧ inBounds gridSize (orb fullBoardState) = true
  ∧ (orb fullBoardState ∉ snake fullBoardState)
  ∧ (orb fullBoardState ∉ barriers fullBoardState)
  ∧ (∀ g, Heuristic.heuristicPolicy g (snake fullBoardState)
            (orb fullBoardState) gridSize (barriers fullBoardState)
          = Returned (LEFT, g))
  ∧ addCell (1, 0) (offset LEFT) = orb fullBoardState
  ∧ ∀ fuel g,
      gameLoop Heuristic.heuristicPolicy fuel g fullBoardState = OutOfFuel.
Proof.
  assert (Hns : orb fullBoardState ∉ snake fullBoardState)
    by (apply (bool_decide_eq_false_1 _); vm_compute; reflexivity).
  assert (Hnb : orb fullBoardState ∉ barriers fullBoardState)
    by (apply (bool_decide_eq_false_1 _); vm_compute; reflexivity).
  assert (Hpol : ∀ g, Heuristic.heuristicPolicy g (snake fullBoardState)
                        (orb fullBoardState) gridSize (barriers fullBoardState)
                      = Returned (LEFT, g))
    by (intros g; vm_compute; reflexivity).
  split_and!; try (vm_compute; reflexivity); try done.
  - apply (bool_decide_unpack _). vm_compute. exact I.
  - intros fuel g.
    destruct (gameLoop_on_orb Heuristic.heuristicPolicy fuel g fullBoardState
                (1, 0) (tail (snake fullBoardState)) LEFT g)
      as (tl & Htl & ->); [reflexivity | apply Hpol | done | done | done |].
    vm_compute in Htl. injection Htl as <-.
    rewrite generateOrb_no_free; [done | done | done |].
    intros c Hc%elem_of_gridCells.
    assert (Hall : forallb
              (λ c, bool_decide
                      (c ∈ (orb fullBoardState
                              :: removelast (snake fullBoardState))
                             ++ [(19, 14)])
                    || bool_decide (c ∈ barriers fullBoardState))
              (gridCells gridSize) = true)
      by (vm_compute; reflexivity).
    rewrite forallb_forall in Hall. apply list_elem_of_In, Hall in Hc.
    apply orb_true_iff in Hc as [Hc|Hc]; apply bool_decide_eq_true in Hc;
      auto.
Qed.

(** C2, amended: a tick whose new head hits nothing and equals the orb makes
    the snake one cell longer by appending a copy of the new tail cell,
    changes the score by +99, and, when the draws reach a cell outside the
    grown snake and the barriers within the fuel, picks a new orb outside
    both. *)
Theorem gameLoop_growth policy fuel g st head body nextMove g1 k :
  snake st = head :: body →
  policy g (snake st) (orb st) gridSize (barriers st)
    = Returned (nextMove, g1) →
  addCell head (offset nextMove) ∉ snake st →
  addCell head (offset nextMove) ∉ barriers st →
  addCell head (offset nextMove) = orb st →
  (k < fuel)%nat →
  orbCandidate g1 gridSize k ∉ orb st :: removelast (snake st) →
  orbCandidate g1 gridSize k ∉ barriers st →
  ∃ st' g2 tl,
    gameLoop policy fuel g st = Returned (NextTick, st', g2)
    ∧ last (orb st :: removelast (snake st)) = Some tl
    ∧ snake st' = (orb st :: removelast (snake st)) ++ [tl]
    ∧ length (snake st') = S (length (snake st))
    ∧ score st' = score st + 99
    ∧ (orb st' ∉ snake st')
    ∧ (orb st' ∉ barriers st')
    ∧ barriers st' = barriers st
    ∧ highscore st' = highscore st.
Proof.
  intros Hsn Hpol Hns Hnb Horb Hk Hcs Hcb.
  destruct (gameLoop_on_orb policy fuel g st head body nextMove g1
              Hsn Hpol Hns Hnb Horb) as (tl & Htl & ->).
  destruct (generateOrb_returns fuel g1 gridSize
              ((orb st :: removelast (snake st)) ++ [tl]) (barriers st) k)
    as (c & g2 & Hgen & Hc1 & Hc2); [done | done | done | | done |].
  { intros [Hin|Hin%list_elem_of_singleton]%elem_of_app; [done|].
    apply Hcs. rewrite Hin. by apply last_Some_elem_of. }
  rewrite (bind_Returned _ _ _ Hgen). cbn beta iota.
  eexists _, g2, tl. split; [reflexivity|]. cbn [snake orb barriers score
    highscore]. repeat split; try done.
  - rewrite length_app, length_cons, length_removelast, Hsn. cbn. lia.
  - lia.
Qed.

Lemma gameLoop_growth_witness :
  ∃ st' g2,
    gameLoop Heuristic.heuristicPolicy 1 countingDraws
      (mkState [(5, 5)] (5, 4) ∅ 0 0) = Returned (NextTick, st', g2)
    ∧ snake st' = [(5, 4); (5, 4)] ∧ score st' = 99 ∧ orb st' = (0, 1).
Proof.
  destruct (gameLoop_growth Heuristic.heuristicPolicy 1 countingDraws
              (mkState [(5, 5)] (5, 4) ∅ 0 0) (5, 5) [] UP countingDraws 0)
    as (st' & g2 & tl & Hrun & _).
  - reflexivity.
  - vm_compute. reflexivity.
  - apply (bool_decide_eq_false_1 _). vm_compute. reflexivity.
  - apply (bool_decide_eq_false_1 _). vm_compute. reflexivity.
  - reflexivity.
  - lia.
  - apply (bool_decide_eq_false_1 _). vm_compute. reflexivity.
  - apply (bool_decide_eq_false_1 _). vm_compute. reflexivity.
  - exists st', g2. split; [exact Hrun|].
    vm_compute in Hrun. injection Hrun as <- _. vm_compute. done.
Defined.



(** * The validity predicates *)

Lemma AStar_isValid_spec snake gridSize barriers c :
  AStar.isValid snake gridSize barriers c = true
  ↔ inBounds gridSize c = true ∧ (c ∉ snake) ∧ (c ∉ barriers).
Proof.
  unfold AStar.isValid.
  rewrite !andb_true_iff, !negb_true_iff, !bool_decide_eq_false. tauto.
Qed.

Lemma Heuristic_isValid_spec snake gridSize barriers c :
  Heuristic.isValid snake gridSize barriers c = true
  ↔ inBounds gridSize c = true ∧ (c ∉ removelast snake) ∧ (c ∉ barriers).
Proof.
  unfold Heuristic.isValid.
  rewrite !andb_true_iff, !negb_true_iff, !bool_decide_eq_false. tauto.
Qed.

Lemma Hybrid_isValid_spec snake gridSize barriers c :
  Hybrid.isValid snake gridSize barriers c = true
  ↔ inBounds gridSize c = true ∧ (c ∉ removelast snake) ∧ (c ∉ barriers).
Proof. apply Heuristic_isValid_spec. Qed.

Lemma elem_of_removelast {A} (l : list A) x : x ∈ removelast l → x ∈ l.
Proof.
  destruct (last l) as [y|] eqn:Hl.
  - apply last_Some in Hl as [l' ->]. rewrite removelast_last. set_solver.
  - apply last_None in Hl as ->. done.
Qed.

Lemma elem_of_not_removelast {A} (l : list A) x :
  x ∈ l → x ∉ removelast l → last l = Some x.
Proof.
  destruct (last l) as [y|] eqn:Hl.
  - apply last_Some in Hl as [l' ->]. rewrite removelast_last.
    intros [? | ->%list_elem_of_singleton]%elem_of_app ?; done.
  - apply last_None in Hl as ->. by intros ?%elem_of_nil.
Qed.

(** C8: [aStarPolicy] rejects every cell of the snake, the other two policies
    reject only the cells of [snake[:-1]]; the predicates disagree exactly on
    a tail cell that passes the latter test, and such a cell exists. *)
Theorem isValid_tail_asymmetry :
  (∀ snake gridSize barriers c,
     AStar.isValid snake gridSize barriers c = true
     ↔ inBounds gridSize c = true ∧ (c ∉ snake) ∧ (c ∉ barriers))
  ∧ (∀ snake gridSize barriers c,
       Heuristic.isValid snake gridSize barriers c = true
       ↔ inBounds gridSize c = true ∧ (c ∉ removelast snake)
         ∧ (c ∉ barriers))
  ∧ (∀ snake gridSize barriers c,
       Hybrid.isValid snake gridSize barriers c = true
       ↔ inBounds gridSize c = true ∧ (c ∉ removelast snake)
         ∧ (c ∉ barriers))
  ∧ (∀ snake gridSize barriers c,
       AStar.isValid snake gridSize barriers c
         ≠ Heuristic.isValid snake gridSize barriers c
       ↔ last snake = Some c
         ∧ Heuristic.isValid snake gridSize barriers c = true)
  ∧ (∃ snake gridSize barriers tl,
       last snake = Some tl
       ∧ AStar.isValid snake gridSize barriers tl = false
       ∧ Heuristic.isValid snake gridSize barriers tl = true
       ∧ Hybrid.isValid snake gridSize barriers tl = true).
Proof.
  split_and!.
  - apply AStar_isValid_spec.
  - apply Heuristic_isValid_spec.
  - apply Hybrid_isValid_spec.
  - intros sn gs bs c. split.
    + intros Hne.
      destruct (Heuristic.isValid sn gs bs c) eqn:Hh.
      * split; [|done].
        apply Heuristic_isValid_spec in Hh as (Hin & Hrl & Hb).
        apply elem_of_not_removelast; [|done].
        destruct (decide (c ∈ sn)); [done|]. exfalso. apply Hne.
        by apply AStar_isValid_spec.
      * exfalso. apply Hne. apply not_true_is_false.
        intros (Hin & Hs & Hb)%AStar_isValid_spec.
        apply not_true_iff_false in Hh. apply Hh.
        apply Heuristic_isValid_spec. split_and!; [done| |done].
        intros ?%elem_of_removelast. done.
    + intros [Hl Hh]. rewrite Hh. apply not_true_iff_false.
      assert (AStar.isValid sn gs bs c ≠ true) as Hn; [|by destruct
        (AStar.isValid sn gs bs c)].
      intros (_ & Hs & _)%AStar_isValid_spec. apply Hs.
      by apply last_Some_elem_of.
  - exists coiledSnake, gridSize, ∅, (1, 2). by vm_compute.
Qed.

Lemma isValid_tail_asymmetry_witness :
  last coiledSnake = Some (1, 2)
  ∧ AStar.isValid coiledSnake gridSize ∅ (1, 2)
      ≠ Heuristic.isValid coiledSnake gridSize ∅ (1, 2).
Proof.
  split; [reflexivity|].
  destruct isValid_tail_asymmetry as (_ & _ & _ & Hdiff & _).
  apply (Hdiff coiledSnake gridSize ∅ (1, 2)).
  split; [reflexivity | vm_compute; reflexivity].
Defined.

(** * First-best selection ([min] and [max] with a key) *)

Lemma firstBest_snoc {A} (better : A → A → bool) x l z :
  firstBest better x (l ++ [z])
  = if better z (firstBest better x l) then z else firstBest better x l.
Proof. unfold firstBest. by rewrite fold_left_app. Qed.

Lemma firstBest_elem_of {A} (better : A → A → bool) x l :
  firstBest better x l ∈ x :: l.
Proof.
  induction l as [|z l IH] using rev_ind; [apply list_elem_of_here|].
  rewrite firstBest_snoc, app_comm_cons, elem_of_app, list_elem_of_singleton.
  destruct (better z _); auto.
Qed.

Lemma firstBest_unbeaten {A} (better : A → A → bool) x l :
  (∀ a, better a a = false) →
  (∀ a b c, better a b = false → better c b = true → better a c = false) →
  ∀ y, y ∈ x :: l → better y (firstBest better x l) = false.
Proof.
  intros Hirr Htr. induction l as [|z l IH] using rev_ind.
  - intros y ->%list_elem_of_singleton. apply Hirr.
  - intros y Hy. rewrite firstBest_snoc.
    destruct (better z (firstBest better x l)) eqn:Hz.
    + rewrite app_comm_cons in Hy.
      apply elem_of_app in Hy as [Hy | ->%list_elem_of_singleton];
        [|apply Hirr].
      eapply Htr; [by apply IH|done].
    + rewrite app_comm_cons in Hy.
      apply elem_of_app in Hy as [Hy | ->%list_elem_of_singleton];
        [by apply IH|done].
Qed.

Lemma elem_of_moves (m : Direction * Cell) : m ∈ moves ↔ m.2 = offset m.1.
Proof.
  unfold moves. destruct m as [d off]. cbn. split.
  - intros H. repeat (apply elem_of_cons in H as [[= -> ->]|H]; [done|]).
    by apply elem_of_nil in H.
  - intros ->. destruct d; set_solver.
Qed.

(** * The greedy policy *)

Lemma Heuristic_validMoves_spec head snake orb gridSize barriers d s :
  (d, s) ∈ Heuristic.validMoves head snake orb gridSize barriers
  ↔ Heuristic.isValid snake gridSize barriers (addCell head (offset d)) = true
    ∧ s = manhattanDistance (addCell head (offset d)) orb.
Proof.
  unfold Heuristic.validMoves. rewrite list_elem_of_omap. split.
  - intros ([d' off] & Hm%elem_of_moves & Hf). cbn in *. subst off.
    destruct (Heuristic.isValid _ _ _ _) eqn:Hv; [|done].
    by injection Hf as -> ->.
  - intros [Hv ->]. exists (d, offset d). split; [by apply elem_of_moves|].
    cbn. by rewrite Hv.
Qed.

(** C5: when some direction leads to a valid head cell, [heuristicPolicy]
    returns a direction whose head cell is valid (in bounds, off the body
    without its tail, off the barriers) and is at least as close to the orb as
    that of every valid direction. *)
Theorem heuristicPolicy_greedy g head body orb gridSize barriers d0 :
  Heuristic.isValid (head :: body) gridSize barriers
    (addCell head (offset d0)) = true →
  ∃ d,
    Heuristic.heuristicPolicy g (head :: body) orb gridSize barriers
      = Returned (d, g)
    ∧ Heuristic.isValid (head :: body) gridSize barriers
        (addCell head (offset d)) = true
    ∧ inBounds gridSize (addCell head (offset d)) = true
    ∧ (addCell head (offset d) ∉ removelast (head :: body))
    ∧ (addCell head (offset d) ∉ barriers)
    ∧ ∀ d', Heuristic.isValid (head :: body) gridSize barriers
              (addCell head (offset d')) = true →
            manhattanDistance (addCell head (offset d)) orb
            ≤ manhattanDistance (addCell head (offset d')) orb.
Proof.
  intros Hd0. unfold Heuristic.heuristicPolicy.
  pose proof (Heuristic_validMoves_spec head (head :: body) orb gridSize
                barriers) as Hspec.
  destruct (Heuristic.validMoves head (head :: body) orb gridSize barriers)
    as [|v vs] eqn:Hvm.
  { exfalso. eapply elem_of_nil, Hspec. eauto. }
  set (best := firstBest (λ x y : Direction * Z, x.2 <? y.2) v vs).
  pose proof (firstBest_elem_of (λ x y : Direction * Z, x.2 <? y.2) v vs)
    as Hin.
  fold best in Hin. destruct best as [d s] eqn:Hbest.
  apply Hspec in Hin as [Hv ->].
  exists d. split; [done|]. split; [done|].
  pose proof Hv as (Hb & Hs & Hbar)%Heuristic_isValid_spec.
  split_and!; [done..|].
  intros d' Hv'.
  pose proof (firstBest_unbeaten (λ x y : Direction * Z, x.2 <? y.2) v vs)
    as Hmin.
  specialize (Hmin ltac:(intros; apply Z.ltb_irrefl)).
  specialize (Hmin ltac:(intros a b c; cbn; rewrite !Z.ltb_nlt, Z.ltb_lt;
                         lia)).
  specialize (Hmin (d', manhattanDistance (addCell head (offset d')) orb)).
  fold best in Hmin. rewrite Hbest in Hmin. cbn in Hmin.
  apply Z.ltb_nlt in Hmin; [lia|]. apply Hspec. done.
Qed.

Lemma heuristicPolicy_greedy_witness :
  ∃ d,
    Heuristic.heuristicPolicy countingDraws coiledSnake (1, 5) gridSize ∅
      = Returned (d, countingDraws)
    ∧ Heuristic.isValid coiledSnake gridSize ∅ (addCell (1, 1) (offset d))
      = true.
Proof.
  destruct (heuristicPolicy_greedy countingDraws (1, 1)
              [(2, 1); (2, 2); (1, 2)] (1, 5) gridSize ∅ UP)
    as (d & Hret & Hvalid & _).
  - vm_compute. reflexivity.
  - exists d. split; [exact Hret | exact Hvalid].
Defined.

(** * Stepping onto the tail *)

(** C10: for both one-step policies there is a well-formed state with a
    direction whose head cell is in bounds and off the whole snake and the
    barriers, where the policy returns the direction onto the tail cell and
    the tick played with it ends the episode. *)
Theorem tail_step_ends_episode :
  (∃ st head safe d g',
     wellFormed gridSize st = true
     ∧ hd_error (snake st) = Some head
     ∧ inBounds gridSize (addCell head (offset safe)) = true
     ∧ (addCell head (offset safe) ∉ snake st)
     ∧ (addCell head (offset safe) ∉ barriers st)
     ∧ Heuristic.heuristicPolicy countingDraws (snake st) (orb st) gridSize
         (barriers st) = Returned (d, g')
     ∧ last (snake st) = Some (addCell head (offset d))
     ∧ gameLoop Heuristic.heuristicPolicy 1 countingDraws st
       = Returned (Reset,
                   mkState (snake st) (orb st) (barriers st) (score st - 1)
                     (Z.max (highscore st) (score st - 1)), g'))
  ∧ (∃ st head safe d g',
       wellFormed gridSize st = true
       ∧ hd_error (snake st) = Some head
       ∧ inBounds gridSize (addCell head (offset safe)) = true
       ∧ (addCell head (offset safe) ∉ snake st)
       ∧ (addCell head (offset safe) ∉ barriers st)
       ∧ Hybrid.hybridPolicy countingDraws (snake st) (orb st) gridSize
           (barriers st) = Returned (d, g')
       ∧ last (snake st) = Some (addCell head (offset d))
       ∧ gameLoop Hybrid.hybridPolicy 1 countingDraws st
         = Returned (Reset,
                     mkState (snake st) (orb st) (barriers st) (score st - 1)
                       (Z.max (highscore st) (score st - 1)), g')).
Proof.
  split.
  - exists coiledState, (1, 1), UP, DOWN, countingDraws.
    split_and!; try (vm_compute; reflexivity);
      apply (bool_decide_eq_false_1 _); vm_compute; reflexivity.
  - exists pocketState, (1, 1), LEFT, DOWN, countingDraws.
    split_and!; try (vm_compute; reflexivity);
      apply (bool_decide_eq_false_1 _); vm_compute; reflexivity.
Qed.

(** * Flood fill *)

Lemma size_list_to_set_le (l : list Cell) :
  (size (list_to_set l : gset Cell) ≤ length l)%nat.
Proof.
  induction l as [|x l IH]; [done|].
  rewrite list_to_set_cons, size_union_alt, size_singleton. cbn.
  pose proof (subseteq_size (list_to_set l ∖ {[x]}) (list_to_set l : gset Cell)
                ltac:(set_solver)).
  lia.
Qed.

Lemma elem_of_offsets (off : Cell) :
  off ∈ [(0, -1); (0, 1); (-1, 0); (1, 0)] ↔ ∃ d, off = offset d.
Proof.
  split.
  - intros H.
    apply elem_of_cons in H as [->|H]; [by exists UP|].
    apply elem_of_cons in H as [->|H]; [by exists DOWN|].
    apply elem_of_cons in H as [->|H]; [by exists LEFT|].
    apply elem_of_cons in H as [->|H]; [by exists RIGHT|].
    by apply elem_of_nil in H.
  - intros [d ->]. destruct d; cbn; set_solver.
Qed.

(** What one sweep over the four neighbours does to [visited] and [queue]. *)
Lemma floodVisit_fold gridSize x y ds : ∀ visited queue,
  ∃ news,
    (foldl (Hybrid.floodVisit gridSize x y) (visited, queue) ds).2
      = queue ++ news
    ∧ (∀ c, c ∈ (foldl (Hybrid.floodVisit gridSize x y) (visited, queue) ds).1
            ↔ c ∈ visited ∨ c ∈ news)
    ∧ NoDup news
    ∧ (∀ n, n ∈ news →
            (n ∉ visited) ∧ inBounds gridSize n = true
            ∧ ∃ d, d ∈ ds ∧ n = (x + d.1, y + d.2))
    ∧ (∀ d, d ∈ ds → inBounds gridSize (x + d.1, y + d.2) = true →
            (x + d.1, y + d.2)
              ∈ (foldl (Hybrid.floodVisit gridSize x y) (visited, queue) ds).1).
Proof.
  induction ds as [|d ds IH]; intros visited queue.
  - exists []. cbn. rewrite app_nil_r. split_and!; try done.
    + set_solver.
    + constructor.
    + by intros n ?%elem_of_nil.
    + by intros d ?%elem_of_nil.
  - cbn [foldl]. unfold Hybrid.floodVisit at 2 4 6. cbn [fst snd].
    destruct (inBounds gridSize (x + d.1, y + d.2)
              && negb (bool_decide ((x + d.1, y + d.2) ∈ visited))) eqn:Hadd.
    + apply andb_true_iff in Hadd as [Hin Hnv].
      apply negb_true_iff, bool_decide_eq_false in Hnv.
      destruct (IH ({[(x + d.1, y + d.2)]} ∪ visited)
                  (queue ++ [(x + d.1, y + d.2)]))
        as (news & Hq & Hv & Hnd & Hnew & Hcov).
      exists ((x + d.1, y + d.2) :: news). split_and!.
      * by rewrite Hq, <- app_assoc.
      * intros c. rewrite Hv. set_solver.
      * constructor; [|done]. intros Hn. apply Hnew in Hn. set_solver.
      * intros n [->|Hn]%elem_of_cons.
        -- split_and!; [done|done|]. exists d. set_solver.
        -- destruct (Hnew n Hn) as (Hn1 & Hn2 & d' & Hd' & ->).
           split_and!; [set_solver|done|]. exists d'. set_solver.
      * intros d' [->|Hd']%elem_of_cons Hb; [|by apply Hcov].
        apply Hv. set_solver.
    + destruct (IH visited queue) as (news & Hq & Hv & Hnd & Hnew & Hcov).
      exists news. split_and!; [done|done|done|..].
      * intros n Hn. destruct (Hnew n Hn) as (Hn1 & Hn2 & d' & Hd' & ->).
        split_and!; [done|done|]. exists d'. set_solver.
      * intros d' [->|Hd']%elem_of_cons Hb; [|by apply Hcov].
        apply Hv. left. rewrite Hb in Hadd. cbn in Hadd.
        by apply negb_false_iff, bool_decide_eq_true in Hadd.
Qed.

Section FloodFill.

Context (snake : list Cell) (barriers : gset Cell) (gridSize start : Cell).

Local Abbreviation free := (Hybrid.isValid snake gridSize barriers).
Local Abbreviation blocked :=
  (list_to_set (removelast snake) ∪ barriers : gset Cell).

Lemma flood_free_spec c :
  free c = true ↔ inBounds gridSize c = true ∧ (c ∉ blocked).
Proof. rewrite Hybrid_isValid_spec. set_solver. Qed.

Lemma floodInv_init :
  floodInv free blocked gridSize start [start] ({[start]} ∪ blocked) ∅.
Proof.
  split.
  - apply NoDup_singleton.
  - set_solver.
  - set_solver.
  - intros c [?| ->%list_elem_of_singleton]; [set_solver|constructor].
  - set_solver.
  - intros c [?| ->%list_elem_of_singleton]; [set_solver|by left].
  - right. set_solver.
Qed.

Lemma floodInv_step c queue visited counted :
  floodInv free blocked gridSize start (c :: queue) visited counted →
  floodInv free blocked gridSize start
    (foldl (Hybrid.floodVisit gridSize c.1 c.2) (visited, queue)
       [(0, -1); (0, 1); (-1, 0); (1, 0)]).2
    (foldl (Hybrid.floodVisit gridSize c.1 c.2) (visited, queue)
       [(0, -1); (0, 1); (-1, 0); (1, 0)]).1
    ({[c]} ∪ counted).
Proof.
  intros [Hnd Hfresh Hvis Hsound Hclosed Hbound Hstart].
  destruct (floodVisit_fold gridSize c.1 c.2
              [(0, -1); (0, 1); (-1, 0); (1, 0)] visited queue)
    as (news & -> & Hv & Hndn & Hnew & Hcov).
  apply NoDup_cons in Hnd as [Hcq Hnd].
  assert (Hreach_new : ∀ n, n ∈ news → reach free start n).
  { intros n Hn. destruct (Hnew n Hn) as (Hnv & Hnb & off & Hoff & ->).
    apply elem_of_offsets in Hoff as [d ->].
    change (c.1 + (offset d).1, c.2 + (offset d).2)
      with (addCell c (offset d)) in *.
    apply reach_step; [apply Hsound; set_solver|].
    apply flood_free_spec. split; [done|]. intros Hb. apply Hnv, Hvis. auto. }
  split.
  - apply NoDup_app. split_and!; [done| |done].
    intros x Hx Hxn. apply Hnew in Hxn as [Hxv _]. apply Hxv, Hvis.
    set_solver.
  - intros x [Hx|Hx]%elem_of_app.
    + specialize (Hfresh x). set_solver.
    + apply Hnew in Hx as [Hxv _]. intros Hc. apply Hxv, Hvis. set_solver.
  - intros x. rewrite Hv, Hvis. set_solver.
  - intros x [Hx|[Hx|Hx]%elem_of_app]; [|apply Hsound; set_solver|by auto].
    apply Hsound. set_solver.
  - intros x d [->%elem_of_singleton|Hx]%elem_of_union Hfree.
    + assert (addCell c (offset d)
                ∈ (foldl (Hybrid.floodVisit gridSize c.1 c.2) (visited, queue)
                     [(0, -1); (0, 1); (-1, 0); (1, 0)]).1) as Hin.
      { apply (Hcov (offset d)); [apply elem_of_offsets; eauto|].
        by apply flood_free_spec in Hfree as [? _]. }
      apply Hv in Hin. apply flood_free_spec in Hfree as [_ Hnb].
      destruct Hin as [Hin|Hin]; [|set_solver].
      apply Hvis in Hin. set_solver.
    + destruct (Hclosed x d Hx Hfree); set_solver.
  - intros x [Hx|[Hx|Hx]%elem_of_app].
    + apply Hbound. set_solver.
    + apply Hbound. set_solver.
    + right. by apply Hnew in Hx as (_ & ? & _).
  - destruct Hstart as [?|?]; set_solver.
Qed.

Lemma floodInv_size queue visited counted :
  floodInv free blocked gridSize start queue visited counted →
  (size counted + length queue ≤ length (gridCells gridSize) + 1)%nat.
Proof.
  intros [Hnd Hfresh _ _ _ Hbound _].
  pose proof (size_list_to_set (C:=gset Cell) queue Hnd) as Hq.
  pose proof (size_union counted (list_to_set queue : gset Cell)
                ltac:(set_solver)) as Hu.
  pose proof (size_list_to_set_le (start :: gridCells gridSize)) as Hle.
  pose proof (subseteq_size (counted ∪ list_to_set queue)
                (list_to_set (start :: gridCells gridSize) : gset Cell))
    as Hsub.
  cbn [length] in Hle. etrans; [|etrans; [apply Hle|lia]].
  rewrite <- Hq, <- Hu. apply Hsub.
  intros c Hc. apply elem_of_list_to_set.
  destruct (Hbound c) as [->|Hb]; [set_solver| |].
  - apply list_elem_of_here.
  - apply list_elem_of_further. by apply elem_of_gridCells.
Qed.

(** The loop returns the number of cells reachable from [start]. *)
Lemma floodLoop_counts fuel : ∀ queue visited counted,
  floodInv free blocked gridSize start queue visited counted →
  (length (gridCells gridSize) + 2 ≤ fuel + size counted)%nat →
  ∃ R : gset Cell,
    Hybrid.floodLoop fuel gridSize queue visited (Z.of_nat (size counted))
      = Returned (Z.of_nat (size R))
    ∧ ∀ c, c ∈ R ↔ reach free start c.
Proof.
  induction fuel as [|fuel IH]; intros queue visited counted Hinv Hfuel.
  { pose proof (floodInv_size _ _ _ Hinv). lia. }
  destruct queue as [|[x y] queue]; cbn [Hybrid.floodLoop].
  - exists counted. split; [done|].
    destruct Hinv as [_ _ _ Hsound Hclosed _ Hstart].
    intros c. split; [auto|].
    induction 1 as [|c d _ IHr Hfree].
    + destruct Hstart as [?|?%elem_of_nil]; done.
    + destruct (Hclosed c d IHr Hfree) as [?|?%elem_of_nil]; done.
  - pose proof (flood_fresh _ _ _ _ _ _ _ Hinv (x, y)
                  ltac:(apply list_elem_of_here)) as Hxy.
    pose proof (floodInv_step _ _ _ _ Hinv) as Hinv'. cbn [fst snd] in Hinv'.
    replace (Z.of_nat (size counted) + 1)
      with (Z.of_nat (size ({[(x, y)]} ∪ counted))).
    + apply IH; [done|].
      rewrite size_union, size_singleton by set_solver. lia.
    + rewrite size_union, size_singleton by set_solver. lia.
Qed.

Lemma floodFillArea_counts :
  ∃ R : gset Cell,
    Hybrid.floodFillArea snake barriers gridSize start
      = Returned (Z.of_nat (size R))
    ∧ ∀ c, c ∈ R ↔ reach free start c.
Proof.
  unfold Hybrid.floodFillArea, Hybrid.floodFillAreaFuel, Hybrid.floodFuel.
  change 0 with (Z.of_nat (size (∅ : gset Cell))).
  apply floodLoop_counts; [apply floodInv_init|].
  rewrite size_empty. lia.
Qed.

End FloodFill.

(** C7: [floodFillArea] returns the number of cells reachable from the start
    cell by steps to 4-neighbours that are in bounds, off [snake[:-1]] and off
    the barriers, the start cell included; on the 5x5 grid without barriers
    and without occupied body cells it returns 25 from every interior cell. *)
Theorem floodFillArea_counts_reachable :
  (∀ snake barriers gridSize start,
     ∃ R : gset Cell,
       Hybrid.floodFillArea snake barriers gridSize start
         = Returned (Z.of_nat (size R))
       ∧ start ∈ R
       ∧ ∀ c, c ∈ R
              ↔ reach (Hybrid.isValid snake gridSize barriers) start c)
  ∧ (∀ snake start,
       removelast snake = [] →
       1 ≤ start.1 ≤ 3 → 1 ≤ start.2 ≤ 3 →
       Hybrid.floodFillArea snake ∅ (5, 5) start = Returned 25).
Proof.
  split.
  - intros sn bs gs start.
    destruct (floodFillArea_counts sn bs gs start) as (R & Hret & HR).
    exists R. split_and!; [done| |done]. apply HR. constructor.
  - intros sn [x y] Hbody Hx Hy. cbn in Hx, Hy.
    unfold Hybrid.floodFillArea, Hybrid.floodFillAreaFuel. rewrite Hbody.
    assert (x = 1 ∨ x = 2 ∨ x = 3) as [->|[->| ->]] by lia;
      assert (y = 1 ∨ y = 2 ∨ y = 3) as [->|[->| ->]] by lia;
      vm_compute; reflexivity.
Qed.

Lemma floodFillArea_counts_reachable_witness :
  Hybrid.floodFillArea [(2, 2)] ∅ (5, 5) (2, 3) = Returned 25.
Proof.
  apply (proj2 floodFillArea_counts_reachable [(2, 2)] (2, 3)).
  - reflexivity.
  - cbn. lia.
  - cbn. lia.
Defined.

(** * The hybrid policy *)

Lemma lexLtb_spec (a b : Z * Z * Z) :
  Hybrid.lexLtb a b = true
  ↔ a.1.1 < b.1.1
    ∨ (a.1.1 = b.1.1 ∧ (a.1.2 < b.1.2 ∨ (a.1.2 = b.1.2 ∧ a.2 < b.2))).
Proof.
  unfold Hybrid.lexLtb.
  rewrite !orb_true_iff, !andb_true_iff, !orb_true_iff, !andb_true_iff,
    !Z.ltb_lt, !Z.eqb_eq. tauto.
Qed.

Lemma lexLtb_false (a b : Z * Z * Z) :
  Hybrid.lexLtb a b = false
  ↔ b.1.1 < a.1.1
    ∨ (b.1.1 = a.1.1 ∧ (b.1.2 < a.1.2 ∨ (b.1.2 = a.1.2 ∧ b.2 ≤ a.2))).
Proof. rewrite <- not_true_iff_false, lexLtb_spec. lia. Qed.

Lemma scoreMoves_spec head snake orb gridSize barriers ms :
  ∃ vms,
    Hybrid.scoreMoves head snake orb gridSize barriers ms = Returned vms
    ∧ ∀ m : Hybrid.Move,
        m ∈ vms
        ↔ ∃ off, (m.1.1.1, off) ∈ ms
            ∧ Hybrid.isValid snake gridSize barriers (addCell head off) = true
            ∧ m.1.1.2 = manhattanDistance (addCell head off) orb
            ∧ Hybrid.floodFillArea snake barriers gridSize (addCell head off)
              = Returned m.1.2
            ∧ m.2 = Hybrid.tailDistanceOf (Hybrid.tailOf snake)
                      (addCell head off).
Proof.
  induction ms as [|[d off] ms (vms & IHret & IH)].
  - exists []. split; [done|]. intros m. split; [by intros ?%elem_of_nil|].
    by intros (? & ?%elem_of_nil & _).
  - cbn [Hybrid.scoreMoves].
    destruct (Hybrid.isValid snake gridSize barriers (addCell head off))
      eqn:Hv.
    + destruct (floodFillArea_counts snake barriers gridSize
                  (addCell head off)) as (R & Harea & _).
      rewrite (bind_Returned _ _ _ Harea), (bind_Returned _ _ _ IHret).
      eexists. split; [reflexivity|]. intros m.
      rewrite elem_of_cons, IH. split.
      * intros [->|(off' & Hin & Hrest)]; cbn.
        -- exists off. split_and!; [apply list_elem_of_here|done..].
        -- exists off'. split; [by apply list_elem_of_further|done].
      * intros (off' & [[= Hd <-]|Hin]%elem_of_cons & Hv' & Hp & Ha & Ht).
        -- left. destruct m as [[[md mp] ma] mt]. cbn in *.
           rewrite Harea in Ha. injection Ha as ->. by subst.
        -- right. exists off'. done.
    + exists vms. split; [done|]. intros m. rewrite IH. split.
      * intros (off' & Hin & Hrest). exists off'.
        split; [by apply list_elem_of_further|done].
      * intros (off' & [[= Hd <-]|Hin]%elem_of_cons & Hv' & Hrest).
        -- by rewrite Hv in Hv'.
        -- exists off'. done.
Qed.

(** C4: when some direction leads to a valid head cell, [hybridPolicy]
    returns a direction whose head cell is valid (in bounds, off the body
    without its tail, off the barriers) and whose key
    (areaScore, tailDistance, -proximityScore) is the greatest, in
    lexicographic order, among the valid directions; so no valid direction
    has a larger areaScore than the returned one. *)
Theorem hybridPolicy_lexicographic g head body orb gridSize barriers d0 :
  Hybrid.isValid (head :: body) gridSize barriers
    (addCell head (offset d0)) = true →
  ∃ d area,
    Hybrid.hybridPolicy g (head :: body) orb gridSize barriers
      = Returned (d, g)
    ∧ Hybrid.isValid (head :: body) gridSize barriers
        (addCell head (offset d)) = true
    ∧ inBounds gridSize (addCell head (offset d)) = true
    ∧ (addCell head (offset d) ∉ removelast (head :: body))
    ∧ (addCell head (offset d) ∉ barriers)
    ∧ Hybrid.floodFillArea (head :: body) barriers gridSize
        (addCell head (offset d)) = Returned area
    ∧ ∀ d',
        Hybrid.isValid (head :: body) gridSize barriers
          (addCell head (offset d')) = true →
        ∃ area',
          Hybrid.floodFillArea (head :: body) barriers gridSize
            (addCell head (offset d')) = Returned area'
          ∧ area' ≤ area
          ∧ lexLe
              (area',
               Hybrid.tailDistanceOf (Hybrid.tailOf (head :: body))
                 (addCell head (offset d')),
               - manhattanDistance (addCell head (offset d')) orb)
              (area,
               Hybrid.tailDistanceOf (Hybrid.tailOf (head :: body))
                 (addCell head (offset d)),
               - manhattanDistance (addCell head (offset d)) orb).
Proof.
  intros Hd0. unfold Hybrid.hybridPolicy.
  destruct (scoreMoves_spec head (head :: body) orb gridSize barriers moves)
    as (vms & Hret & Hspec).
  rewrite (bind_Returned _ _ _ Hret).
  assert (Hvalid_in : ∀ d',
    Hybrid.isValid (head :: body) gridSize barriers
      (addCell head (offset d')) = true →
    ∃ area',
      Hybrid.floodFillArea (head :: body) barriers gridSize
        (addCell head (offset d')) = Returned area'
      ∧ (d', manhattanDistance (addCell head (offset d')) orb, area',
         Hybrid.tailDistanceOf (Hybrid.tailOf (head :: body))
           (addCell head (offset d'))) ∈ vms).
  { intros d' Hv'.
    destruct (floodFillArea_counts (head :: body) barriers gridSize
                (addCell head (offset d'))) as (R & Harea & _).
    eexists. split; [exact Harea|]. apply Hspec. exists (offset d').
    split_and!; [by apply elem_of_moves|done..]. }
  destruct vms as [|v vs].
  { destruct (Hvalid_in d0 Hd0) as (? & _ & ?%elem_of_nil). done. }
  set (better := λ x y : Hybrid.Move,
                   Hybrid.lexLtb (Hybrid.moveKey y) (Hybrid.moveKey x)).
  pose proof (firstBest_elem_of better v vs) as Hin.
  pose proof (firstBest_unbeaten better v vs) as Hmax.
  specialize (Hmax ltac:(intros a; apply lexLtb_false; lia)).
  specialize (Hmax ltac:(intros a b c; unfold better;
                         rewrite !lexLtb_false, lexLtb_spec; lia)).
  destruct (firstBest better v vs) as [[[d p] area] t] eqn:Hbest.
  apply Hspec in Hin as (off & Hoff%elem_of_moves & Hv & Hp & Ha & Ht).
  cbn in Hoff, Hp, Ha, Ht. subst off p t.
  exists d, area. split; [done|]. split; [done|].
  pose proof Hv as (Hb & Hs & Hbar)%Hybrid_isValid_spec.
  split_and!; [done..|].
  intros d' Hv'. destruct (Hvalid_in d' Hv') as (area' & Ha' & Hin').
  exists area'. split; [done|].
  specialize (Hmax _ Hin'). unfold better in Hmax.
  apply lexLtb_false in Hmax. unfold Hybrid.moveKey in Hmax. cbn in Hmax.
  unfold lexLe. cbn. lia.
Qed.

Lemma hybridPolicy_lexicographic_witness :
  ∃ d,
    Hybrid.hybridPolicy countingDraws (snake pocketState) (orb pocketState)
      gridSize (barriers pocketState) = Returned (d, countingDraws)
    ∧ Hybrid.isValid (snake pocketState) gridSize (barriers pocketState)
        (addCell (1, 1) (offset d)) = true.
Proof.
  destruct (hybridPolicy_lexicographic countingDraws (1, 1)
              [(2, 1); (2, 2); (1, 2)] (10, 0) gridSize
              (barriers pocketState) LEFT)
    as (d & area & Hret & Hvalid & _).
  - vm_compute. reflexivity.
  - exists d. split; [exact Hret | exact Hvalid].
Defined.

(** * The A* loop *)

Lemma insertByKey_perm e l : AStar.insertByKey e l ≡ₚ e :: l.
Proof.
  induction l as [|e' l IH]; [done|]. cbn.
  destruct (AStar.fScore e <=? AStar.fScore e'); [done|].
  by rewrite IH, Permutation_swap.
Qed.

Lemma sortByKey_perm l : AStar.sortByKey l ≡ₚ l.
Proof.
  induction l as [|e l IH]; [done|]. cbn.
  by rewrite insertByKey_perm, IH.
Qed.

Lemma insertByKey_sorted e l :
  StronglySorted (λ a b, AStar.fScore a ≤ AStar.fScore b) l →
  StronglySorted (λ a b, AStar.fScore a ≤ AStar.fScore b)
    (AStar.insertByKey e l).
Proof.
  induction 1 as [|e' l Hl IH Hall]; cbn.
  - repeat constructor.
  - destruct (Z.leb_spec (AStar.fScore e) (AStar.fScore e')).
    + constructor; [by constructor|]. constructor; [done|].
      eapply Forall_impl; [done|]. cbn. intros; lia.
    + constructor; [done|]. rewrite insertByKey_perm.
      constructor; [lia|done].
Qed.

Lemma sortByKey_sorted l :
  StronglySorted (λ a b, AStar.fScore a ≤ AStar.fScore b) (AStar.sortByKey l).
Proof.
  induction l as [|e l IH]; cbn; [constructor|by apply insertByKey_sorted].
Qed.

(** [sort] followed by [pop(0)] takes out an entry of least key. *)
Lemma sortByKey_pop l e rest :
  AStar.sortByKey l = e :: rest →
  l ≡ₚ e :: rest ∧ ∀ e', e' ∈ l → AStar.fScore e ≤ AStar.fScore e'.
Proof.
  intros Hs. pose proof (sortByKey_perm l) as Hp.
  pose proof (sortByKey_sorted l) as Hsorted. rewrite Hs in Hp, Hsorted.
  split; [done|]. intros e' He'. rewrite <- Hp in He'.
  apply StronglySorted_inv in Hsorted as [_ Hall].
  apply elem_of_cons in He' as [->|He']; [lia|].
  by eapply Forall_forall in Hall.
Qed.

Lemma elem_of_expand snake orb gridSize barriers visited gScore current path e :
  e ∈ AStar.expand snake orb gridSize barriers visited gScore current path
  ↔ ∃ d,
      AStar.isValid snake gridSize barriers (addCell current (offset d)) = true
      ∧ (addCell current (offset d) ∉ visited)
      ∧ e = (gScore + 1 + manhattanDistance (addCell current (offset d)) orb,
             gScore + 1, addCell current (offset d), path ++ [d]).
Proof.
  unfold AStar.expand. rewrite list_elem_of_omap. split.
  - intros ([d off] & Hm%elem_of_moves & Hf). cbn in *. subst off.
    destruct (AStar.isValid _ _ _ _ && _) eqn:Hc; [|done].
    apply andb_true_iff in Hc as [Hv Hn].
    apply negb_true_iff, bool_decide_eq_false in Hn.
    injection Hf as <-. by exists d.
  - intros (d & Hv & Hn & ->). exists (d, offset d).
    split; [by apply elem_of_moves|]. cbn.
    by rewrite Hv, (bool_decide_eq_false_2 _ Hn).
Qed.

Lemma length_omap_le {A B} (f : A → option B) (l : list A) :
  (length (omap f l) ≤ length l)%nat.
Proof.
  induction l as [|x l IH]; [done|]. cbn. destruct (f x); cbn; lia.
Qed.

Lemma length_expand snake orb gridSize barriers visited gScore current path :
  (length (AStar.expand snake orb gridSize barriers visited gScore current
             path) ≤ 4)%nat.
Proof. unfold AStar.expand. apply (length_omap_le _ moves). Qed.

Section SearchLoop.

Context (g : rng) (snake : list Cell) (orb gridSize : Cell)
  (barriers : gset Cell) (head : Cell).

Local Abbreviation valid := (AStar.isValid snake gridSize barriers).
Local Abbreviation cells := (expandable valid gridSize head).

Lemma elem_of_expandable c : c = head ∨ valid c = true → c ∈ cells.
Proof.
  unfold expandable. intros [->|Hv]; [set_solver|].
  apply elem_of_union_r, elem_of_list_to_set, list_elem_of_filter.
  split; [done|]. apply elem_of_gridCells.
  by apply AStar_isValid_spec in Hv as [? _].
Qed.

Lemma size_expandable :
  (size cells ≤ AStar.freeCells snake gridSize barriers + 1)%nat.
Proof.
  unfold expandable, AStar.freeCells.
  rewrite size_union_alt, size_singleton.
  pose proof (size_list_to_set_le
                (filter (λ c, valid c = true) (gridCells gridSize))) as Hle.
  pose proof (subseteq_size
                (list_to_set (filter (λ c, valid c = true)
                                (gridCells gridSize)) ∖ {[head]})
                (list_to_set (filter (λ c, valid c = true)
                                (gridCells gridSize)) : gset Cell)
                ltac:(set_solver)).
  lia.
Qed.

(** A loop rule for [search]: an invariant [I] kept by the two ways round
    the loop, and a postcondition [Post] met at its two exits, give [Post]
    of the result whenever the fuel covers the entries still open plus four
    for each cell not yet expanded. *)
Lemma search_rule (I : list AStar.Entry → gset Cell → Prop)
    (Post : outcome (Direction * rng) → Prop) :
  (∀ visited, I [] visited → Post (choice g (moves.*1))) →
  (∀ openSet visited f gS path rest,
     I openSet visited → openSet ≡ₚ (f, gS, orb, path) :: rest →
     (∀ e', e' ∈ openSet → f ≤ AStar.fScore e') →
     Post (Returned (AStar.firstStep path, g))) →
  (∀ openSet visited f gS c path rest,
     I openSet visited → openSet ≡ₚ (f, gS, c, path) :: rest →
     (∀ e', e' ∈ openSet → f ≤ AStar.fScore e') →
     c ≠ orb → c ∈ visited → I rest visited) →
  (∀ openSet visited f gS c path rest,
     I openSet visited → openSet ≡ₚ (f, gS, c, path) :: rest →
     (∀ e', e' ∈ openSet → f ≤ AStar.fScore e') →
     c ≠ orb → c ∉ visited →
     I (rest ++ AStar.expand snake orb gridSize barriers ({[c]} ∪ visited)
                  gS c path)
       ({[c]} ∪ visited)) →
  ∀ fuel openSet visited,
    searchInv valid head openSet visited →
    I openSet visited →
    (length openSet + 4 * (size cells - size visited) < fuel)%nat →
    Post (AStar.search fuel g snake orb gridSize barriers openSet visited).
Proof.
  intros Hempty Hgoal Hskip Hexpand.
  induction fuel as [|fuel IH]; intros openSet visited Hinv HI Hfuel; [lia|].
  cbn [AStar.search].
  destruct openSet as [|e0 openSet0] eqn:Hopen; [by eapply Hempty|].
  rewrite <- Hopen in *.
  destruct (AStar.sortByKey openSet) as [|[[[f gS] c] path] rest] eqn:Hsort.
  { pose proof (sortByKey_perm openSet) as Hp. rewrite Hsort, Hopen in Hp.
    by apply Permutation_nil_cons in Hp. }
  apply sortByKey_pop in Hsort as [Hp Hmin]. cbn in Hmin.
  assert (Hlen : length openSet = S (length rest)) by by rewrite Hp.
  destruct Hinv as [Hio Hiv].
  assert (Hrest : ∀ e, e ∈ rest → e ∈ openSet).
  { intros e He. rewrite Hp. by apply list_elem_of_further. }
  case_bool_decide as Horb; [subst c; by eapply Hgoal|].
  case_bool_decide as Hvis.
  - apply IH; [split; auto|by eapply Hskip|lia].
  - assert (Hc : c ∈ cells).
    { apply elem_of_expandable. apply (Hio (f, gS, c, path)).
      rewrite Hp. apply list_elem_of_here. }
    assert (Hsub : {[c]} ∪ visited ⊆ cells).
    { intros x [->%elem_of_singleton|Hx]%elem_of_union; [done|].
      by apply elem_of_expandable, Hiv. }
    apply subseteq_size in Hsub.
    rewrite size_union, size_singleton in Hsub by set_solver.
    apply IH.
    + split.
      * intros e [He|He]%elem_of_app; [by apply Hio, Hrest|].
        apply elem_of_expand in He as (d & Hv & _ & ->). by right.
      * intros x [->%elem_of_singleton|Hx]%elem_of_union; [|by apply Hiv].
        apply (Hio (f, gS, c, path)). rewrite Hp. apply list_elem_of_here.
    + by eapply Hexpand.
    + rewrite length_app, size_union, size_singleton by set_solver.
      pose proof (length_expand snake orb gridSize barriers ({[c]} ∪ visited)
                    gS c path).
      lia.
Qed.

End SearchLoop.

Lemma choice_directions g :
  ∃ d, choice g (moves.*1) = Returned (d, rngNext g)
       ∧ d ∈ [UP; DOWN; LEFT; RIGHT].
Proof.
  unfold choice. cbn [fmap list_fmap moves fst length].
  eexists. split; [reflexivity|].
  pose proof (Nat.mod_upper_bound (g 0%nat) 4 ltac:(lia)) as Hlt.
  destruct (g 0%nat `mod` 4)%nat as [|[|[|[|n]]]]; cbn; [set_solver..|lia].
Qed.

Lemma search_fuel_enough snake gridSize barriers head fuel :
  (AStar.searchFuel snake gridSize barriers ≤ fuel)%nat →
  (length [(0, 0, head, @nil Direction)]
   + 4 * (size (expandable (AStar.isValid snake gridSize barriers) gridSize
                  head) - size (∅ : gset Cell)) < fuel)%nat.
Proof.
  intros Hfuel. unfold AStar.searchFuel in Hfuel.
  pose proof (size_expandable snake gridSize barriers head).
  rewrite size_empty. cbn [length]. lia.
Qed.

Lemma searchInv_init valid head e :
  AStar.entryCell e = head → searchInv valid head [e] ∅.
Proof.
  intros He. split.
  - intros e' ->%list_elem_of_singleton. by left.
  - set_solver.
Qed.

(** C6: on a non-empty snake the loop of [aStarPolicy] ends within
    [4 * (free cells + 1) + 2] tests of its condition, whatever the orb, the
    grid and the barriers are, and the function returns one of the four
    directions without raising; when the orb cannot be reached over valid
    cells the direction is the one drawn by [random.choice]. *)
Theorem aStarPolicy_terminates g head body orb gridSize barriers :
  (∀ fuel,
     (AStar.searchFuel (head :: body) gridSize barriers ≤ fuel)%nat →
     ∃ d g',
       AStar.aStarPolicyFuel fuel g (head :: body) orb gridSize barriers
         = Returned (d, g')
       ∧ d ∈ [UP; DOWN; LEFT; RIGHT])
  ∧ (∃ d g',
       AStar.aStarPolicy g (head :: body) orb gridSize barriers
         = Returned (d, g')
       ∧ d ∈ [UP; DOWN; LEFT; RIGHT])
  ∧ (¬ reach (AStar.isValid (head :: body) gridSize barriers) head orb →
     ∀ fuel,
       (AStar.searchFuel (head :: body) gridSize barriers ≤ fuel)%nat →
       AStar.aStarPolicyFuel fuel g (head :: body) orb gridSize barriers
         = choice g [UP; DOWN; LEFT; RIGHT]).
Proof.
  assert (Hret : ∀ fuel,
    (AStar.searchFuel (head :: body) gridSize barriers ≤ fuel)%nat →
    ∃ d g',
      AStar.aStarPolicyFuel fuel g (head :: body) orb gridSize barriers
        = Returned (d, g')
      ∧ d ∈ [UP; DOWN; LEFT; RIGHT]).
  { intros fuel Hfuel. unfold AStar.aStarPolicyFuel.
    apply (search_rule g (head :: body) orb gridSize barriers head
             (λ _ _, True)
             (λ o, ∃ d g', o = Returned (d, g') ∧ d ∈ [UP; DOWN; LEFT; RIGHT])).
    - intros _ _. destruct (choice_directions g) as (d & Hd & Hin). eauto.
    - intros _ _ f gS path rest _ _ _. eexists _, _. split; [done|].
      destruct (AStar.firstStep path); set_solver.
    - done.
    - done.
    - by apply searchInv_init.
    - done.
    - by apply search_fuel_enough. }
  split_and!; [done|by apply Hret|].
  intros Hunreach fuel Hfuel. unfold AStar.aStarPolicyFuel.
  apply (search_rule g (head :: body) orb gridSize barriers head
           (λ openSet _,
              ∀ e, e ∈ openSet →
                   reach (AStar.isValid (head :: body) gridSize barriers) head
                     (AStar.entryCell e))
           (λ o, o = choice g [UP; DOWN; LEFT; RIGHT])).
  - done.
  - intros openSet _ f gS path rest Hreach Hp _. exfalso.
    apply Hunreach, (Hreach (f, gS, orb, path)). rewrite Hp.
    apply list_elem_of_here.
  - intros openSet _ f gS c path rest Hreach Hp _ _ _ e He.
    apply Hreach. rewrite Hp. by apply list_elem_of_further.
  - intros openSet visited f gS c path rest Hreach Hp _ _ _ e
      [He|He]%elem_of_app.
    + apply Hreach. rewrite Hp. by apply list_elem_of_further.
    + apply elem_of_expand in He as (d & Hv & _ & ->).
      apply reach_step; [|done].
      apply (Hreach (f, gS, c, path)). rewrite Hp. apply list_elem_of_here.
  - by apply searchInv_init.
  - intros e ->%list_elem_of_singleton. constructor.
  - by apply search_fuel_enough.
Qed.

Lemma aStarPolicy_terminates_witness :
  AStar.aStarPolicyFuel 2000 countingDraws coiledSnake (10, 0) gridSize
    walledBarriers
  = choice countingDraws [UP; DOWN; LEFT; RIGHT].
Proof.
  apply (proj2 (proj2 (aStarPolicy_terminates countingDraws (1, 1)
                         [(2, 1); (2, 2); (1, 2)] (10, 0) gridSize
                         walledBarriers))).
  - assert (Hbox : ∀ c,
      reach (AStar.isValid coiledSnake gridSize walledBarriers) (1, 1) c →
      c = (1, 1)).
    { induction 1 as [|c d _ -> Hv]; [reflexivity|].
      destruct d; vm_compute in Hv; discriminate Hv. }
    intros Hr. apply Hbox in Hr. discriminate Hr.
  - apply Nat.leb_le. vm_compute. reflexivity.
Defined.

(** * A* on clear shortest paths *)

Lemma manhattan_step c d x :
  manhattanDistance c x - 1 ≤ manhattanDistance (addCell c (offset d)) x
                            ≤ manhattanDistance c x + 1.
Proof. unfold manhattanDistance, addCell. destruct d; cbn; lia. Qed.

Lemma manhattan_triangle a b c :
  manhattanDistance a b ≤ manhattanDistance a c + manhattanDistance c b.
Proof. unfold manhattanDistance. lia. Qed.

Lemma manhattan_zero a b : manhattanDistance a b = 0 ↔ a = b.
Proof.
  unfold manhattanDistance. destruct a as [a1 a2], b as [b1 b2]. cbn. split.
  - intros H. f_equal; lia.
  - intros [= -> ->]. lia.
Qed.

Lemma manhattan_neighbour c d :
  manhattanDistance c (addCell c (offset d)) = 1.
Proof. unfold manhattanDistance, addCell. destruct d; cbn; lia. Qed.

Lemma walk_snoc c path d :
  walk c (path ++ [d]) = addCell (walk c path) (offset d).
Proof. unfold walk. by rewrite foldl_app. Qed.

Lemma manhattan_walk path : ∀ c x,
  manhattanDistance c x - Z.of_nat (length path)
  ≤ manhattanDistance (walk c path) x.
Proof.
  induction path as [|d path IH]; intros c x; cbn [walk foldl length].
  - lia.
  - pose proof (IH (addCell c (offset d)) x) as H.
    pose proof (manhattan_step c d x). unfold walk in H. lia.
Qed.

Lemma closer_neighbour c x :
  c ≠ x →
  ∃ d, manhattanDistance (addCell c (offset d)) x = manhattanDistance c x - 1.
Proof.
  intros Hne. destruct c as [c1 c2], x as [x1 x2].
  destruct (Z.lt_total c1 x1) as [?|[->|?]].
  - exists RIGHT. unfold manhattanDistance, addCell. cbn. lia.
  - destruct (Z.lt_total c2 x2) as [?|[->|?]]; [|done|].
    + exists DOWN. unfold manhattanDistance, addCell. cbn. lia.
    + exists UP. unfold manhattanDistance, addCell. cbn. lia.
  - exists LEFT. unfold manhattanDistance, addCell. cbn. lia.
Qed.

(** As long as the invariant holds some open tuple carries the least
    estimate, the distance from head to orb. *)
Lemma optInv_progress head orb openSet visited :
  optInv head orb openSet visited →
  ∃ e, e ∈ openSet ∧ AStar.fScore e = manhattanDistance head orb.
Proof.
  intros [Hentry Horb Hvis Hhead Hcloser].
  assert (Hfrom : ∀ n v, v ∈ visited →
            Z.to_nat (manhattanDistance v orb) = n →
            ∃ e, e ∈ openSet ∧ AStar.fScore e = manhattanDistance head orb).
  { induction n as [n IH] using lt_wf_ind. intros v Hv Hn.
    destruct (closer_neighbour v orb) as [d Hd]; [by intros ->|].
    destruct (Hcloser v d Hv Hd) as [Hnv|(e & He & _ & Hf)]; [|by exists e].
    assert (0 ≤ manhattanDistance (addCell v (offset d)) orb)
      by (unfold manhattanDistance; lia).
    apply (IH (Z.to_nat (manhattanDistance (addCell v (offset d)) orb)))
      with (addCell v (offset d)); [lia|done|done]. }
  destruct Hhead as [Hh|Hh]; [by eapply Hfrom|].
  eexists. split; [exact Hh|done].
Qed.

Lemma manhattan_walk_upper path : ∀ c x,
  manhattanDistance (walk c path) x
  ≤ manhattanDistance c x + Z.of_nat (length path).
Proof.
  induction path as [|d path IH]; intros c x; cbn [walk foldl length].
  - lia.
  - pose proof (IH (addCell c (offset d)) x) as H.
    pose proof (manhattan_step c d x). unfold walk in H. lia.
Qed.

Lemma manhattan_sym a b : manhattanDistance a b = manhattanDistance b a.
Proof. unfold manhattanDistance. lia. Qed.

Lemma manhattan_self a : manhattanDistance a a = 0.
Proof. by apply manhattan_zero. Qed.

Section ClearPaths.

Context (g : rng) (head : Cell) (body : list Cell) (orb gridSize : Cell)
  (barriers : gset Cell).
Context (Hclear : clearPaths gridSize (head :: body) orb barriers head).

Local Abbreviation snake0 := (head :: body).
Local Abbreviation dist0 := (manhattanDistance head orb).

Lemma clear_valid c :
  onShortestPath head orb c → c ≠ head →
  AStar.isValid snake0 gridSize barriers c = true.
Proof.
  destruct Hclear as (Hh & Ho & _ & Hfree). intros Hc Hne.
  apply AStar_isValid_spec. destruct (Hfree c Hc Hne) as [? ?].
  split_and!; [|done|done].
  apply inBounds_spec in Hh, Ho. apply inBounds_spec.
  unfold onShortestPath, manhattanDistance in Hc. lia.
Qed.

Lemma optInv_init : optInv head orb [(dist0, 0, head, [])] ∅.
Proof.
  split.
  - intros f gS c path [= -> -> -> ->]%list_elem_of_singleton. cbn.
    split_and!; [lia|done|done].
  - set_solver.
  - set_solver.
  - right. apply list_elem_of_here.
  - set_solver.
Qed.

Lemma optInv_bound openSet visited f gS c path :
  optInv head orb openSet visited → (f, gS, c, path) ∈ openSet →
  dist0 ≤ f ∧ (f = dist0 → onShortestPath head orb c).
Proof.
  intros Hinv Hin.
  destruct (opt_entry _ _ _ _ Hinv f gS c path Hin) as (-> & -> & ->).
  pose proof (manhattan_walk path head orb).
  pose proof (manhattan_walk_upper path head head).
  pose proof (manhattan_triangle head orb (walk head path)).
  rewrite manhattan_self in *. unfold onShortestPath.
  rewrite (manhattan_sym head (walk head path)) in *. lia.
Qed.

Lemma optInv_popped openSet visited f gS c path rest :
  optInv head orb openSet visited →
  openSet ≡ₚ (f, gS, c, path) :: rest →
  (∀ e', e' ∈ openSet → f ≤ AStar.fScore e') →
  f = dist0 ∧ onShortestPath head orb c.
Proof.
  intros Hinv Hp Hmin.
  assert (Hin : (f, gS, c, path) ∈ openSet)
    by (rewrite Hp; apply list_elem_of_here).
  destruct (optInv_bound _ _ _ _ _ _ Hinv Hin) as [Hge Hon].
  destruct (optInv_progress _ _ _ _ Hinv) as (e & He & Hf).
  specialize (Hmin e He). assert (f = dist0) by lia. auto.
Qed.

Lemma optInv_goal openSet visited f gS path rest :
  optInv head orb openSet visited →
  openSet ≡ₚ (f, gS, orb, path) :: rest →
  (∀ e', e' ∈ openSet → f ≤ AStar.fScore e') →
  manhattanDistance (addCell head (offset (AStar.firstStep path))) orb
  = dist0 - 1.
Proof.
  intros Hinv Hp Hmin.
  destruct (optInv_popped _ _ _ _ _ _ _ Hinv Hp Hmin) as [-> _].
  assert (Hin : (dist0, gS, orb, path) ∈ openSet)
    by (rewrite Hp; apply list_elem_of_here).
  destruct (opt_entry _ _ _ _ Hinv _ _ _ _ Hin) as (Hf & -> & Hw).
  rewrite manhattan_self in Hf.
  destruct Hclear as (_ & _ & Hne & _).
  destruct path as [|d path].
  { cbn in Hw. by subst. }
  cbn [AStar.firstStep]. cbn [walk foldl] in Hw.
  pose proof (manhattan_walk path (addCell head (offset d)) orb) as Hlow.
  fold (walk (addCell head (offset d)) path) in Hw. rewrite <- Hw in Hlow.
  rewrite manhattan_self in Hlow.
  pose proof (manhattan_step head d orb). cbn [length] in Hf. lia.
Qed.

Lemma optInv_skip openSet visited f gS c path rest :
  optInv head orb openSet visited →
  openSet ≡ₚ (f, gS, c, path) :: rest →
  c ∈ visited →
  optInv head orb rest visited.
Proof.
  intros [Hentry Horb Hvis Hhead Hcloser] Hp Hc. split; [|done|done|..].
  - intros f' gS' c' path' Hin. apply Hentry. rewrite Hp.
    by apply list_elem_of_further.
  - destruct Hhead as [?|Hh]; [by left|]. rewrite Hp in Hh.
    apply elem_of_cons in Hh as [[= _ _ -> _]|Hh]; auto.
  - intros v d Hv Hd.
    destruct (Hcloser v d Hv Hd) as [?|(e & He & Hcell & Hf)]; [by left|].
    rewrite Hp in He. apply elem_of_cons in He as [->|He].
    + left. by rewrite <- Hcell.
    + right. by exists e.
Qed.

Lemma optInv_expand openSet visited f gS c path rest :
  optInv head orb openSet visited →
  openSet ≡ₚ (f, gS, c, path) :: rest →
  (∀ e', e' ∈ openSet → f ≤ AStar.fScore e') →
  c ≠ orb →
  optInv head orb
    (rest ++ AStar.expand snake0 orb gridSize barriers ({[c]} ∪ visited)
               gS c path)
    ({[c]} ∪ visited).
Proof.
  intros Hinv Hp Hmin Hne.
  destruct (optInv_popped _ _ _ _ _ _ _ Hinv Hp Hmin) as [-> Hon].
  assert (Hin : (dist0, gS, c, path) ∈ openSet)
    by (rewrite Hp; apply list_elem_of_here).
  destruct (opt_entry _ _ _ _ Hinv _ _ _ _ Hin) as (Hf & HgS & Hw).
  destruct Hinv as [Hentry Horb Hvis Hhead Hcloser]. split.
  - intros f' gS' c' path' [Hin'|Hin']%elem_of_app.
    + apply Hentry. rewrite Hp. by apply list_elem_of_further.
    + apply elem_of_expand in Hin' as (d & _ & _ & Heq).
      injection Heq as -> -> -> ->.
      split_and!; [done| |by rewrite walk_snoc, <- Hw].
      rewrite length_app. cbn. lia.
  - set_solver.
  - intros v [->%elem_of_singleton|Hv]%elem_of_union; auto.
  - destruct Hhead as [?|Hh]; [left; set_solver|]. rewrite Hp in Hh.
    apply elem_of_cons in Hh as [[= _ -> _]|Hh].
    + left. set_solver.
    + right. apply elem_of_app. by left.
  - intros v d Hv Hd. apply elem_of_union in Hv as [->%elem_of_singleton|Hv].
    + destruct (decide (addCell c (offset d) ∈ {[c]} ∪ visited)) as [?|Hnv];
        [by left|].
      right.
      exists (gS + 1 + manhattanDistance (addCell c (offset d)) orb, gS + 1,
              addCell c (offset d), path ++ [d]).
      split; [|split; [reflexivity|]].
      * apply elem_of_app. right. apply elem_of_expand. exists d.
        split_and!; [|done|reflexivity].
        apply clear_valid.
        -- pose proof (manhattan_step c d head).
           pose proof (manhattan_triangle head orb (addCell c (offset d))).
           unfold onShortestPath in *.
           rewrite (manhattan_sym head (addCell c (offset d))) in *.
           rewrite (manhattan_sym head c) in Hon. lia.
        -- intros Heq. rewrite Heq in Hd. unfold onShortestPath in Hon.
           assert (0 ≤ manhattanDistance head c)
             by (unfold manhattanDistance; lia).
           lia.
      * cbn. lia.
    + destruct (Hcloser v d Hv Hd) as [?|(e & He & Hcell & Hfe)];
        [left; set_solver|].
      rewrite Hp in He. apply elem_of_cons in He as [->|He].
      * left. cbn in Hcell. set_solver.
      * right. exists e. split_and!; [|done|done].
        apply elem_of_app. by left.
Qed.

(** On clear shortest paths the search returns a first step that brings
    the head one cell nearer to the orb. *)
Lemma aStarPolicyFuel_nearer fuel :
  (AStar.searchFuel snake0 gridSize barriers ≤ fuel)%nat →
  ∃ d,
    AStar.aStarPolicyFuel fuel g snake0 orb gridSize barriers
      = Returned (d, g)
    ∧ manhattanDistance (addCell head (offset d)) orb = dist0 - 1.
Proof.
  intros Hfuel. unfold AStar.aStarPolicyFuel.
  apply (search_rule g snake0 orb gridSize barriers head (optInv head orb)
           (λ o, ∃ d, o = Returned (d, g)
                      ∧ manhattanDistance (addCell head (offset d)) orb
                        = dist0 - 1)).
  - intros visited Hinv.
    destruct (optInv_progress _ _ _ _ Hinv) as (e & ?%elem_of_nil & _). done.
  - intros openSet visited f gS path rest Hinv Hp Hmin.
    eexists. split; [reflexivity|]. by eapply optInv_goal.
  - intros openSet visited f gS c path rest Hinv Hp _ _ Hc.
    by eapply optInv_skip.
  - intros openSet visited f gS c path rest Hinv Hp Hmin Hne _.
    by eapply optInv_expand.
  - by apply searchInv_init.
  - apply optInv_init.
  - by apply search_fuel_enough.
Qed.

End ClearPaths.

(** * Chasing the orb with A* *)

Lemma clearPaths_step gridSize head body orb barriers d :
  clearPaths gridSize (head :: body) orb barriers head →
  manhattanDistance (addCell head (offset d)) orb
    = manhattanDistance head orb - 1 →
  (addCell head (offset d) ∉ head :: body)
  ∧ (addCell head (offset d) ∉ barriers)
  ∧ (addCell head (offset d) ≠ orb →
     clearPaths gridSize (addCell head (offset d) :: removelast (head :: body))
       orb barriers (addCell head (offset d))).
Proof.
  intros (Hh & Ho & Hne & Hfree) Hd.
  pose proof (manhattan_neighbour head d) as Hn.
  assert (Hon : onShortestPath head orb (addCell head (offset d)))
    by (unfold onShortestPath; lia).
  assert (Hneq : addCell head (offset d) ≠ head).
  { intros Heq. rewrite Heq, manhattan_self in Hn. lia. }
  destruct (Hfree _ Hon Hneq) as [Hns Hnb]. split_and!; [done|done|].
  intros Hno. split_and!; [|done|done|].
  - apply inBounds_spec in Hh, Ho. apply inBounds_spec.
    unfold onShortestPath, manhattanDistance in Hon. lia.
  - intros c Hc Hcn.
    assert (Hc' : onShortestPath head orb c).
    { unfold onShortestPath in *.
      pose proof (manhattan_triangle head c (addCell head (offset d))).
      pose proof (manhattan_triangle head orb c). lia. }
    assert (Hch : c ≠ head).
    { intros ->. unfold onShortestPath in Hc.
      rewrite (manhattan_sym _ head) in Hc. lia. }
    destruct (Hfree c Hc' Hch) as [Hcs Hcb]. split; [|done].
    intros [?|Hin%elem_of_removelast]%elem_of_cons; done.
Qed.

Lemma aStar_tick fuel g st head body :
  snake st = head :: body →
  clearPaths gridSize (snake st) (orb st) (barriers st) head →
  ∃ d,
    AStar.aStarPolicy g (snake st) (orb st) gridSize (barriers st)
      = Returned (d, g)
    ∧ manhattanDistance (addCell head (offset d)) (orb st)
      = manhattanDistance head (orb st) - 1
    ∧ (addCell head (offset d) ≠ orb st →
       gameLoop AStar.aStarPolicy fuel g st
         = Returned (NextTick,
                     mkState (addCell head (offset d) :: removelast (snake st))
                       (orb st) (barriers st) (score st - 1) (highscore st),
                     g)
       ∧ clearPaths gridSize
           (addCell head (offset d) :: removelast (snake st)) (orb st)
           (barriers st) (addCell head (offset d)))
    ∧ (addCell head (offset d) = orb st →
       ∀ next st' g',
         gameLoop AStar.aStarPolicy fuel g st = Returned (next, st', g') →
         next = NextTick ∧ hd_error (snake st') = Some (orb st)).
Proof.
  intros Hsn Hclear. rewrite Hsn in Hclear.
  destruct (aStarPolicyFuel_nearer g head body (orb st) gridSize (barriers st)
              Hclear (AStar.searchFuel (head :: body) gridSize (barriers st))
              ltac:(done)) as (d & Hpol & Hd).
  exists d. rewrite Hsn. split; [done|]. split; [done|].
  destruct (clearPaths_step _ _ _ _ _ d Hclear Hd) as (Hns & Hnb & Hnext).
  unfold gameLoop. rewrite Hsn.
  rewrite (bind_Returned _ _ _ Hpol). cbn beta iota.
  rewrite (bool_decide_eq_false_2 _ Hns), (bool_decide_eq_false_2 _ Hnb).
  cbn [orb negb Datatypes.orb]. split.
  - intros Hno. rewrite (bool_decide_eq_false_2 _ Hno). auto.
  - intros Heq. rewrite (bool_decide_eq_true_2 _ Heq).
    intros next st' g'. unfold lastCell.
    destruct (last _) as [tl|]; [|done].
    change (mbind ?f (Returned ?a)) with (f a). cbn beta.
    destruct (generateOrb _ _ _ _ _) as [[orb2 g2]| |]; [|done|done].
    change (mbind ?f (Returned ?a)) with (f a). cbn beta iota.
    intros [= <- <- _]. cbn. by rewrite Heq.
Qed.

Lemma aStar_run_before k : ∀ fuel g st head body,
  snake st = head :: body →
  clearPaths gridSize (snake st) (orb st) (barriers st) head →
  Z.of_nat k < manhattanDistance head (orb st) →
  ∃ st_k head_k d_k,
    run AStar.aStarPolicy k fuel g st NextTick = Returned (NextTick, st_k, g)
    ∧ hd_error (snake st_k) = Some head_k
    ∧ orb st_k = orb st
    ∧ barriers st_k = barriers st
    ∧ score st_k = score st - Z.of_nat k
    ∧ manhattanDistance head_k (orb st)
      = manhattanDistance head (orb st) - Z.of_nat k
    ∧ AStar.aStarPolicy g (snake st_k) (orb st_k) gridSize (barriers st_k)
      = Returned (d_k, g)
    ∧ manhattanDistance (addCell head_k (offset d_k)) (orb st)
      = manhattanDistance head (orb st) - Z.of_nat k - 1.
Proof.
  induction k as [|k IH]; intros fuel g st head body Hsn Hclear Hk.
  - destruct (aStar_tick fuel g st head body Hsn Hclear)
      as (d & Hpol & Hd & _).
    exists st, head, d. cbn [run].
    split_and!; [done | by rewrite Hsn | done | done | lia | lia | done | lia].
  - destruct (aStar_tick fuel g st head body Hsn Hclear)
      as (d & Hpol & Hd & Hmove & _).
    destruct Hmove as [Htick Hclear'].
    { intros Heq. rewrite Heq, manhattan_self in Hd. lia. }
    set (st1 := mkState (addCell head (offset d) :: removelast (snake st))
                  (orb st) (barriers st) (score st - 1) (highscore st)) in *.
    destruct (IH fuel g st1 (addCell head (offset d)) (removelast (snake st))
                eq_refl Hclear' ltac:(cbn; lia))
      as (st_k & head_k & d_k & Hrun & Hhd & Horb & Hbar & Hsc & Hdist & Hp
          & Hnear).
    exists st_k, head_k, d_k. cbn [run].
    rewrite (bind_Returned _ _ _ Htick). cbn beta iota.
    subst st1. cbn [orb barriers score] in *.
    split_and!; try done; lia.
Qed.

Lemma aStar_run_reaches n : ∀ fuel g st head body next st' g',
  snake st = head :: body →
  clearPaths gridSize (snake st) (orb st) (barriers st) head →
  manhattanDistance head (orb st) = Z.of_nat (S n) →
  run AStar.aStarPolicy (S n) fuel g st NextTick = Returned (next, st', g') →
  next = NextTick ∧ hd_error (snake st') = Some (orb st).
Proof.
  induction n as [|n IH]; intros fuel g st head body next st' g' Hsn Hclear
    Hdist Hrun.
  - destruct (aStar_tick fuel g st head body Hsn Hclear)
      as (d & Hpol & Hd & _ & Hlast).
    assert (Heq : addCell head (offset d) = orb st)
      by (apply manhattan_zero; lia).
    cbn [run] in Hrun.
    destruct (gameLoop AStar.aStarPolicy fuel g st) as [[[nx s1] g1]| |]
      eqn:Htick; [|done|done].
    change (mbind ?f (Returned ?a)) with (f a) in Hrun. cbn in Hrun.
    injection Hrun as <- <- <-. by eapply Hlast.
  - destruct (aStar_tick fuel g st head body Hsn Hclear)
      as (d & Hpol & Hd & Hmove & _).
    destruct Hmove as [Htick Hclear'].
    { intros Heq. rewrite Heq, manhattan_self in Hd. lia. }
    change (run AStar.aStarPolicy (S (S n)) fuel g st NextTick)
      with (gameLoop AStar.aStarPolicy fuel g st
            ≫= λ '(next1, st1, g1),
                 run AStar.aStarPolicy (S n) fuel g1 st1 next1) in Hrun.
    rewrite (bind_Returned _ _ _ Htick) in Hrun. cbn beta iota in Hrun.
    eapply (IH fuel g _ (addCell head (offset d)) (removelast (snake st)))
      in Hrun; [done|done|done|cbn; lia].
Qed.

(** C1: when head and orb are distinct cells of the grid and no snake cell
    (the head apart) and no barrier lies on a shortest path between them,
    [aStarPolicy] returns a direction that brings the head exactly one cell
    nearer to the orb; and playing the returned direction tick after tick,
    after [k] ticks the head is [k] cells nearer, so that the move of tick
    number [d] (the distance at the start) is the first that puts the head on
    the orb. *)
Theorem aStarPolicy_chases_orb :
  (∀ g head body orb gridSize barriers,
     clearPaths gridSize (head :: body) orb barriers head →
     ∃ d,
       AStar.aStarPolicy g (head :: body) orb gridSize barriers
         = Returned (d, g)
       ∧ manhattanDistance (addCell head (offset d)) orb
         = manhattanDistance head orb - 1)
  ∧ (∀ fuel g st head body,
       snake st = head :: body →
       clearPaths gridSize (snake st) (orb st) (barriers st) head →
       (∀ k, Z.of_nat k < manhattanDistance head (orb st) →
          ∃ st_k head_k d_k,
            run AStar.aStarPolicy k fuel g st NextTick
              = Returned (NextTick, st_k, g)
            ∧ hd_error (snake st_k) = Some head_k
            ∧ orb st_k = orb st
            ∧ manhattanDistance head_k (orb st)
              = manhattanDistance head (orb st) - Z.of_nat k
            ∧ head_k ≠ orb st
            ∧ AStar.aStarPolicy g (snake st_k) (orb st_k) gridSize
                (barriers st_k) = Returned (d_k, g)
            ∧ manhattanDistance (addCell head_k (offset d_k)) (orb st)
              = manhattanDistance head (orb st) - Z.of_nat k - 1
            ∧ (Z.of_nat k = manhattanDistance head (orb st) - 1 →
               addCell head_k (offset d_k) = orb st))
       ∧ (∀ next st' g',
            run AStar.aStarPolicy
              (Z.to_nat (manhattanDistance head (orb st))) fuel g st NextTick
              = Returned (next, st', g') →
            next = NextTick ∧ hd_error (snake st') = Some (orb st))).
Proof.
  split.
  { intros g head body orb gs bs Hclear.
    by apply (aStarPolicyFuel_nearer g head body orb gs bs Hclear). }
  intros fuel g st head body Hsn Hclear. split.
  - intros k Hk.
    destruct (aStar_run_before k fuel g st head body Hsn Hclear Hk)
      as (st_k & head_k & d_k & Hrun & Hhd & Horb & _ & _ & Hdist & Hp
          & Hnear).
    exists st_k, head_k, d_k. split_and!; try done.
    + intros ->. rewrite manhattan_self in Hdist. lia.
    + intros Hlast. apply manhattan_zero. lia.
  - intros next st' g' Hrun.
    assert (Hpos : 0 < manhattanDistance head (orb st)).
    { destruct Hclear as (_ & _ & Hne & _).
      assert (manhattanDistance head (orb st) ≠ 0)
        by by rewrite manhattan_zero.
      unfold manhattanDistance in *. lia. }
    destruct (Z.to_nat (manhattanDistance head (orb st))) as [|n] eqn:Hn;
      [lia|].
    eapply aStar_run_reaches; [done|done| |done]. lia.
Qed.

Lemma openState_clearPaths :
  clearPaths gridSize (snake openState) (orb openState) (barriers openState)
    (5, 5).
Proof.
  split_and!; [reflexivity | reflexivity | discriminate |].
  intros c Hon Hne. split; [|apply not_elem_of_empty].
  intros Hin. apply elem_of_cons in Hin as [->|Hin]; [by apply Hne|].
  apply elem_of_cons in Hin as [->|Hin]; [vm_compute in Hon; discriminate|].
  apply elem_of_cons in Hin as [->|Hin]; [vm_compute in Hon; discriminate|].
  by apply elem_of_nil in Hin.
Defined.

Lemma aStarPolicy_chases_orb_witness :
  (∃ d,
     AStar.aStarPolicy countingDraws (snake openState) (orb openState)
       gridSize (barriers openState) = Returned (d, countingDraws)
     ∧ manhattanDistance (addCell (5, 5) (offset d)) (7, 3) = 3)
  ∧ (∃ st_3 head_3 d_3,
       run AStar.aStarPolicy 3 1 countingDraws openState NextTick
         = Returned (NextTick, st_3, countingDraws)
       ∧ hd_error (snake st_3) = Some head_3
       ∧ addCell head_3 (offset d_3) = (7, 3)).
Proof.
  destruct aStarPolicy_chases_orb as [Hfirst Hrun]. split.
  - destruct (Hfirst countingDraws (5, 5) [(5, 6); (5, 7)] (7, 3) gridSize ∅
                openState_clearPaths) as (d & Hret & Hdist).
    exists d. split; [exact Hret | exact Hdist].
  - destruct (Hrun 1%nat countingDraws openState (5, 5) [(5, 6); (5, 7)]
                eq_refl openState_clearPaths) as [Hbefore _].
    destruct (Hbefore 3%nat ltac:(reflexivity))
      as (st_3 & head_3 & d_3 & Hr & Hhd & _ & _ & _ & _ & _ & Hlast).
    exists st_3, head_3, d_3.
    split; [exact Hr|]. split; [exact Hhd|]. apply Hlast. reflexivity.
Defined.

(** * Barrier generation *)

Lemma randint_empty g a b : b < a → randint g a b = Raised ValueError.
Proof. intros Hlt. unfold randint. by destruct (Z.ltb_spec b a); [|lia]. Qed.

Lemma barrierFull_spec (gridSize : Cell) (b : gset Cell) :
  barrierFull gridSize b = true
  ↔ maxBarrierCellsOf gridSize ≤ Z.of_nat (size b).
Proof. unfold barrierFull. apply Z.leb_le. Qed.

Lemma size_add_le (c : Cell) (b : gset Cell) :
  (size ({[c]} ∪ b) ≤ S (size b))%nat.
Proof.
  rewrite size_union_alt, size_singleton.
  pose proof (subseteq_size (b ∖ {[c]}) b ltac:(set_solver)). lia.
Qed.

Section Barriers.

Context (gridSize : Cell) (snake : list Cell) (orb : Cell).

(** What every barrier laid by [generateBarriers] satisfies. *)
Local Abbreviation laid := (λ b : gset Cell,
  ∀ c, c ∈ b → inBounds gridSize c = true ∧ (c ∉ snake) ∧ c ≠ orb).

Lemma barrierRow_inv x startY jRange : ∀ b,
  barrierFull gridSize b = false → laid b →
  laid (barrierRow gridSize snake orb x startY jRange b)
  ∧ Z.of_nat (size (barrierRow gridSize snake orb x startY jRange b))
    ≤ maxBarrierCellsOf gridSize.
Proof.
  induction jRange as [|j jRange IH]; intros b Hnf Hb; cbn [barrierRow].
  - split; [done|]. apply not_true_iff_false in Hnf.
    rewrite barrierFull_spec in Hnf. lia.
  - set (c := (x, startY + j)).
    set (b' := if inBounds gridSize c && negb (bool_decide (c ∈ snake))
                  && negb (bool_decide (c = orb))
               then {[c]} ∪ b else b).
    assert (Hb' : laid b').
    { unfold b'. destruct (inBounds gridSize c && _ && _) eqn:Hadd; [|done].
      apply andb_true_iff in Hadd as [[Hin Hs]%andb_true_iff Ho].
      apply negb_true_iff, bool_decide_eq_false in Hs, Ho.
      intros c' [->%elem_of_singleton|Hc']%elem_of_union; auto. }
    assert (Hsz : (size b' ≤ S (size b))%nat).
    { unfold b'. destruct (inBounds gridSize c && _ && _);
        [apply size_add_le|lia]. }
    destruct (barrierFull gridSize b') eqn:Hf'; [|by apply IH].
    split; [done|]. apply not_true_iff_false in Hnf.
    rewrite barrierFull_spec in Hnf. lia.
Qed.

Lemma barrierBlock_inv startX startY iRange jRange : ∀ b,
  barrierFull gridSize b = false → laid b →
  laid (barrierBlock gridSize snake orb startX startY iRange jRange b)
  ∧ Z.of_nat
      (size (barrierBlock gridSize snake orb startX startY iRange jRange b))
    ≤ maxBarrierCellsOf gridSize.
Proof.
  induction iRange as [|i iRange IH]; intros b Hnf Hb; cbn [barrierBlock].
  - split; [done|]. apply not_true_iff_false in Hnf.
    rewrite barrierFull_spec in Hnf. lia.
  - destruct (barrierRow_inv (startX + i) startY jRange b Hnf Hb)
      as [Hrow Hsz].
    destruct (barrierFull gridSize (barrierRow _ _ _ _ _ _ b)) eqn:Hf';
      [done|by apply IH].
Qed.

Lemma barrierLoop_inv fuel : ∀ g b r g',
  laid b →
  Z.of_nat (size b) ≤ Z.max 0 (maxBarrierCellsOf gridSize) →
  barrierLoop fuel g gridSize snake orb b = Returned (r, g') →
  laid r ∧ Z.of_nat (size r) = Z.max 0 (maxBarrierCellsOf gridSize).
Proof.
  induction fuel as [|fuel IH]; intros g b r g' Hb Hsz; cbn [barrierLoop];
    destruct (barrierFull gridSize b) eqn:Hf.
  - intros [= <- <-]. apply barrierFull_spec in Hf. split; [done|lia].
  - done.
  - intros [= <- <-]. apply barrierFull_spec in Hf. split; [done|lia].
  - destruct (randint g 1 3) as [[barrierSize g1]| |]; [|done|done].
    change (mbind ?f (Returned ?a)) with (f a). cbn beta iota.
    destruct (randint g1 0 (gridSize.1 - 1)) as [[startX g2]| |];
      [|done|done].
    change (mbind ?f (Returned ?a)) with (f a). cbn beta iota.
    destruct (randint g2 0 (gridSize.2 - 1)) as [[startY g3]| |];
      [|done|done].
    change (mbind ?f (Returned ?a)) with (f a). cbn beta iota zeta.
    destruct (barrierBlock_inv startX startY (seqZ 0 barrierSize)
                (seqZ 0 barrierSize) b Hf Hb) as [Hblock Hle].
    apply IH; [done|lia].
Qed.

End Barriers.





(** * Orb generation *)


Lemma orbCandidate_inBounds g (gridSize : Cell) k :
  0 < gridSize.1 → 0 < gridSize.2 →
  inBounds gridSize (orbCandidate g gridSize k) = true.
Proof.
  intros Hw Hh. apply inBounds_spec. unfold orbCandidate. cbn [fst snd].
  pose proof (Z.mod_pos_bound (Z.of_nat (g (2 * k)%nat)) gridSize.1 Hw).
  pose proof (Z.mod_pos_bound (Z.of_nat (g (2 * k + 1)%nat)) gridSize.2 Hh).
  lia.
Qed.

Lemma generateOrb_inv fuel : ∀ g (gridSize : Cell) snake barriers c g',
  0 < gridSize.1 → 0 < gridSize.2 →
  generateOrb fuel g gridSize snake barriers = Returned (c, g') →
  ∃ k, (k < fuel)%nat
       ∧ c = orbCandidate g gridSize k
       ∧ (c ∉ snake) ∧ (c ∉ barriers)
       ∧ (∀ j, (j < k)%nat →
               orbCandidate g gridSize j ∈ snake
               ∨ orbCandidate g gridSize j ∈ barriers)
       ∧ g' = Nat.iter (2 * S k) rngNext g.
Proof.
  induction fuel as [|fuel IH]; intros g gs sn bs c g' Hw Hh; [done|].
  cbn [generateOrb].
  rewrite (bind_Returned _ _ _ (randint_from_0 g _ Hw)). cbn beta iota.
  rewrite (bind_Returned _ _ _ (randint_from_0 (rngNext g) _ Hh)).
  cbn beta iota zeta.
  change (Z.of_nat (g 0%nat) `mod` gs.1, Z.of_nat (rngNext g 0%nat) `mod` gs.2)
    with (orbCandidate g gs 0).
  destruct (decide (orbCandidate g gs 0 ∈ sn ∨ orbCandidate g gs 0 ∈ bs))
    as [Hocc|Hfree].
  - assert (negb (bool_decide (orbCandidate g gs 0 ∈ sn))
            && negb (bool_decide (orbCandidate g gs 0 ∈ bs)) = false) as ->.
    { destruct Hocc as [Hc|Hc]; rewrite (bool_decide_eq_true_2 _ Hc); cbn;
        [done | apply andb_false_r]. }
    intros Hrec.
    destruct (IH _ _ _ _ _ _ Hw Hh Hrec)
      as (k & Hk & Hc & Hs & Hb & Hbefore & Hg).
    exists (S k). rewrite orbCandidate_next in Hc.
    split_and!; [lia|done|done|done| |].
    + intros [|j] Hj; [done|]. rewrite <- orbCandidate_next. apply Hbefore.
      lia.
    + rewrite Hg. replace (2 * S (S k))%nat with (2 * S k + 2)%nat by lia.
      by rewrite Nat.iter_add.
  - assert ((orbCandidate g gs 0 ∉ sn) ∧ (orbCandidate g gs 0 ∉ bs)) as [H1 H2]
      by tauto.
    rewrite (bool_decide_eq_false_2 _ H1), (bool_decide_eq_false_2 _ H2).
    cbn. intros [= <- <-]. exists 0%nat.
    split_and!; [lia|done|done|done| |done]. intros j Hj. lia.
Qed.

(** X3: on a grid with cells, the orb that [generateOrb] returns is the first
    cell of its sequence of candidates that is off the snake and the
    barriers: it lies inside the grid, every earlier candidate was occupied,
    and exactly two draws per candidate tried have been used. *)
Theorem generateOrb_first_free fuel g (gridSize : Cell) snake barriers c g' :
  0 < gridSize.1 → 0 < gridSize.2 →
  generateOrb fuel g gridSize snake barriers = Returned (c, g') →
  inBounds gridSize c = true
  ∧ (c ∉ snake) ∧ (c ∉ barriers)
  ∧ ∃ k, (k < fuel)%nat
         ∧ c = orbCandidate g gridSize k
         ∧ (∀ j, (j < k)%nat →
                 orbCandidate g gridSize j ∈ snake
                 ∨ orbCandidate g gridSize j ∈ barriers)
         ∧ g' = Nat.iter (2 * S k) rngNext g.
Proof.
  intros Hw Hh Hret.
  destruct (generateOrb_inv fuel g gridSize snake barriers c g' Hw Hh Hret)
    as (k & Hk & -> & Hs & Hb & Hbefore & Hg).
  split_and!; [by apply orbCandidate_inBounds|done|done|].
  by exists k.
Qed.

Lemma generateOrb_first_free_witness :
  ∃ c g',
    generateOrb 5 countingDraws gridSize startSnake ∅ = Returned (c, g')
    ∧ inBounds gridSize c = true.
Proof.
  destruct (generateOrb 5 countingDraws gridSize startSnake ∅)
    as [[c g']| |] eqn:Hgen.
  - exists c, g'. split; [reflexivity|].
    apply (generateOrb_first_free 5 countingDraws gridSize startSnake ∅ c g');
      [reflexivity | reflexivity | exact Hgen].
  - vm_compute in Hgen. discriminate Hgen.
  - vm_compute in Hgen. discriminate Hgen.
Defined.

(** X4: [generateOrb] cannot succeed on a grid without a free cell: with a
    width or a height that is not positive its first draw raises
    [ValueError], and when every cell of the grid is on the snake or a
    barrier the loop runs through any number of candidates without
    returning. *)
Theorem generateOrb_no_cell (gridSize : Cell) snake barriers :
  (gridSize.1 ≤ 0 ∨ gridSize.2 ≤ 0 →
   ∀ fuel g, generateOrb (S fuel) g gridSize snake barriers
             = Raised ValueError)
  ∧ (0 < gridSize.1 → 0 < gridSize.2 →
     (∀ c, inBounds gridSize c = true → c ∈ snake ∨ c ∈ barriers) →
     ∀ fuel g, generateOrb fuel g gridSize snake barriers = OutOfFuel).
Proof.
  split; [|apply generateOrb_no_free].
  intros Hdim fuel g. cbn [generateOrb].
  destruct (Z.le_gt_cases gridSize.1 0) as [Hw|Hw].
  - by rewrite (randint_empty g 0 (gridSize.1 - 1)) by lia.
  - rewrite (bind_Returned _ _ _ (randint_from_0 g _ Hw)). cbn beta iota.
    by rewrite (randint_empty _ 0 (gridSize.2 - 1)) by lia.
Qed.

Lemma generateOrb_no_cell_witness :
  generateOrb 1 countingDraws (0, 5) [] ∅ = Raised ValueError
  ∧ generateOrb 7 countingDraws (1, 1) [(0, 0)] ∅ = OutOfFuel.
Proof.
  split.
  - apply (proj1 (generateOrb_no_cell (0, 5) [] ∅)). left. reflexivity.
  - apply (proj2 (generateOrb_no_cell (1, 1) [(0, 0)] ∅));
      [reflexivity | reflexivity |].
    intros [x y] Hc. left. apply inBounds_spec in Hc. cbn in Hc.
    assert (x = 0) as -> by lia. assert (y = 0) as -> by lia.
    apply list_elem_of_here.
Defined.

(** * The tick, branch by branch *)

Lemma lookup_removelast {A} (l : list A) i :
  (S i < length l)%nat → removelast l !! i = l !! i.
Proof.
  destruct (last l) as [x|] eqn:Hl.
  - apply last_Some in Hl as [l' ->]. rewrite removelast_last, length_app.
    cbn. intros Hi. rewrite lookup_app_l; [done|lia].
  - apply last_None in Hl as ->. cbn. lia.
Qed.

Lemma chained_cons (a b : Cell) (l : list Cell) :
  chained (a :: b :: l) = (manhattanDistance a b =? 1) && chained (b :: l).
Proof. reflexivity. Qed.

Lemma chained_removelast (l : list Cell) :
  chained l = true → chained (removelast l) = true.
Proof.
  induction l as [|a l IH]; [done|]. destruct l as [|b l]; [done|].
  rewrite chained_cons. intros [Hab Hl]%andb_true_iff. specialize (IH Hl).
  change (removelast (a :: b :: l)) with (a :: removelast (b :: l)).
  destruct l as [|c l]; [done|].
  change (removelast (b :: c :: l)) with (b :: removelast (c :: l)) in *.
  by rewrite chained_cons, Hab, IH.
Qed.

Lemma chained_shift head body d :
  chained (head :: body) = true →
  chained (addCell head (offset d) :: removelast (head :: body)) = true.
Proof.
  intros Hch. apply chained_removelast in Hch.
  destruct body as [|b body]; [done|].
  change (removelast (head :: b :: body))
    with (head :: removelast (b :: body)) in *.
  rewrite chained_cons, Hch, andb_true_r. apply Z.eqb_eq.
  rewrite manhattan_sym. apply manhattan_neighbour.
Qed.

(** X5: a tick whose new head hits nothing and is not on the orb moves the
    snake by one cell: the new head comes first, every other cell takes the
    place of the one before it and the old tail cell is dropped, so the
    length stays and a connected snake stays connected; the score drops by
    one and orb, barriers and high score are kept. *)
Theorem gameLoop_plain_move policy fuel g st head body nextMove g1 :
  snake st = head :: body →
  policy g (snake st) (orb st) gridSize (barriers st)
    = Returned (nextMove, g1) →
  addCell head (offset nextMove) ∉ snake st →
  addCell head (offset nextMove) ∉ barriers st →
  addCell head (offset nextMove) ≠ orb st →
  ∃ st',
    gameLoop policy fuel g st = Returned (NextTick, st', g1)
    ∧ snake st' = addCell head (offset nextMove) :: removelast (snake st)
    ∧ length (snake st') = length (snake st)
    ∧ (∀ i, (S i < length (snake st))%nat →
            snake st' !! S i = snake st !! i)
    ∧ (chained (snake st) = true → chained (snake st') = true)
    ∧ orb st' = orb st
    ∧ barriers st' = barriers st
    ∧ score st' = score st - 1
    ∧ highscore st' = highscore st.
Proof.
  intros Hsn Hpol Hns Hnb Hno. unfold gameLoop.
  rewrite (bind_Returned _ _ _ Hpol). cbn beta iota. rewrite Hsn.
  rewrite <- Hsn.
  rewrite (bool_decide_eq_false_2 _ Hns), (bool_decide_eq_false_2 _ Hnb),
    (bool_decide_eq_false_2 _ Hno).
  cbn [Datatypes.orb]. eexists. split; [reflexivity|].
  cbn [snake orb barriers score highscore]. split_and!; try done.
  - cbn [length]. rewrite length_removelast, Hsn. done.
  - intros i Hi. cbn [lookup list_lookup]. by apply lookup_removelast.
  - rewrite Hsn. apply chained_shift.
Qed.

Lemma gameLoop_plain_move_witness :
  ∃ st',
    gameLoop Heuristic.heuristicPolicy 0 countingDraws openState
      = Returned (NextTick, st', countingDraws)
    ∧ snake st' = [(5, 4); (5, 5); (5, 6)].
Proof.
  destruct (gameLoop_plain_move Heuristic.heuristicPolicy 0 countingDraws
              openState (5, 5) [(5, 6); (5, 7)] UP countingDraws)
    as (st' & Hrun & Hsn & _).
  - reflexivity.
  - vm_compute. reflexivity.
  - apply (bool_decide_eq_false_1 _). vm_compute. reflexivity.
  - apply (bool_decide_eq_false_1 _). vm_compute. reflexivity.
  - discriminate.
  - exists st'. split; [exact Hrun | exact Hsn].
Defined.

(** X6: whatever the policy answers, a tick that returns leaves the barriers
    as they were, never lowers the high score and changes it only when it
    ends the episode, changes the score by -1 or by +99, and keeps the
    length of the snake or adds one cell; a tick that ends the episode
    leaves snake and orb as they were. *)
Theorem gameLoop_frame policy fuel g st next st' g' :
  gameLoop policy fuel g st = Returned (next, st', g') →
  barriers st' = barriers st
  ∧ highscore st ≤ highscore st'
  ∧ (next = NextTick → highscore st' = highscore st)
  ∧ (score st' = score st - 1 ∨ score st' = score st + 99)
  ∧ (length (snake st') = length (snake st)
     ∨ length (snake st') = S (length (snake st)))
  ∧ (next = Reset → snake st' = snake st ∧ orb st' = orb st).
Proof.
  unfold gameLoop.
  destruct (policy g (snake st) (orb st) gridSize (barriers st))
    as [[nextMove g1]| |]; [|done|done].
  change (mbind ?f (Returned ?a)) with (f a). cbn beta iota.
  destruct (snake st) as [|head body] eqn:Hsn; [done|].
  pose proof (length_removelast (head :: body)) as Hlen.
  cbn [length pred] in Hlen.
  set (rl := removelast (head :: body)) in *. clearbody rl.
  destruct (bool_decide _ || bool_decide _).
  { intros [= <- <- <-]. cbn [snake orb barriers score highscore].
    split_and!; [done | lia | done | left; lia | by left | done]. }
  destruct (bool_decide (addCell head (offset nextMove) = orb st)).
  - unfold lastCell.
    destruct (last_cons_is_Some (addCell head (offset nextMove)) rl)
      as [tl ->].
    change (mbind ?f (Returned ?a)) with (f a). cbn beta iota zeta.
    destruct (generateOrb _ _ _ _ _) as [[orb2 g2]| |]; [|done|done].
    change (mbind ?f (Returned ?a)) with (f a). cbn beta iota.
    intros [= <- <- <-]. cbn [snake orb barriers score highscore].
    split_and!; [done | lia | done | right; lia | | done].
    right. cbn [length]. rewrite length_app, Hlen. cbn. lia.
  - intros [= <- <- <-]. cbn [snake orb barriers score highscore].
    split_and!; [done | lia | done | left; lia | | done].
    left. cbn [length]. by rewrite Hlen.
Qed.

Lemma gameLoop_frame_witness :
  ∃ next st' g',
    gameLoop Heuristic.heuristicPolicy 0 countingDraws coiledState
      = Returned (next, st', g')
    ∧ barriers st' = ∅ ∧ score st' = -1.
Proof.
  destruct (gameLoop Heuristic.heuristicPolicy 0 countingDraws coiledState)
    as [[[next st'] g']| |] eqn:Hrun.
  - exists next, st', g'. split; [reflexivity|].
    destruct (gameLoop_frame Heuristic.heuristicPolicy 0 countingDraws
                coiledState next st' g' Hrun) as (Hb & _).
    split; [exact Hb|]. vm_compute in Hrun. by injection Hrun as <- <- <-.
  - vm_compute in Hrun. discriminate Hrun.
  - vm_compute in Hrun. discriminate Hrun.
Defined.

(** X7: the tick tests the new head against the snake and the barriers
    only, never against the grid: when snake and barriers are inside the
    grid and the direction played leads outside it, the tick moves the head
    out of the grid and schedules the next tick. *)
Theorem gameLoop_leaves_grid policy fuel g st head body nextMove g1 :
  snake st = head :: body →
  policy g (snake st) (orb st) gridSize (barriers st)
    = Returned (nextMove, g1) →
  (∀ c, c ∈ snake st → inBounds gridSize c = true) →
  (∀ c, c ∈ barriers st → inBounds gridSize c = true) →
  inBounds gridSize (orb st) = true →
  inBounds gridSize (addCell head (offset nextMove)) = false →
  ∃ st',
    gameLoop policy fuel g st = Returned (NextTick, st', g1)
    ∧ hd_error (snake st') = Some (addCell head (offset nextMove))
    ∧ score st' = score st - 1.
Proof.
  intros Hsn Hpol Hs Hb Ho Hout.
  assert (Hns : addCell head (offset nextMove) ∉ snake st).
  { intros Hin. apply Hs in Hin. congruence. }
  assert (Hnb : addCell head (offset nextMove) ∉ barriers st).
  { intros Hin. apply Hb in Hin. congruence. }
  assert (Hno : addCell head (offset nextMove) ≠ orb st) by congruence.
  unfold gameLoop.
  rewrite (bind_Returned _ _ _ Hpol). cbn beta iota. rewrite Hsn.
  rewrite <- Hsn.
  rewrite (bool_decide_eq_false_2 _ Hns), (bool_decide_eq_false_2 _ Hnb),
    (bool_decide_eq_false_2 _ Hno).
  cbn [Datatypes.orb]. eexists. split; [reflexivity|]. done.
Qed.

Lemma gameLoop_leaves_grid_witness :
  ∃ st',
    gameLoop AStar.aStarPolicy 0 countingDraws corneredState
      = Returned (NextTick, st', rngNext countingDraws)
    ∧ hd_error (snake st') = Some (0, -1).
Proof.
  destruct (gameLoop_leaves_grid AStar.aStarPolicy 0 countingDraws
              corneredState (0, 0) [(1, 0); (1, 1)] UP (rngNext countingDraws))
    as (st' & Hrun & Hhd & _).
  - reflexivity.
  - vm_compute. reflexivity.
  - intros c Hc. cbn in Hc.
    repeat (apply elem_of_cons in Hc as [->|Hc]; [reflexivity|]).
    by apply elem_of_nil in Hc.
  - intros c Hc. cbn in Hc. apply elem_of_singleton in Hc as ->. reflexivity.
  - reflexivity.
  - reflexivity.
  - exists st'. split; [exact Hrun | exact Hhd].
Defined.

(** * Invariants of the simulator *)

Lemma linked_cons (a b : Cell) (l : list Cell) :
  linked (a :: b :: l) = (manhattanDistance a b <=? 1) && linked (b :: l).
Proof. reflexivity. Qed.

Lemma linked_removelast (l : list Cell) :
  linked l = true → linked (removelast l) = true.
Proof.
  induction l as [|a l IH]; [done|]. destruct l as [|b l]; [done|].
  rewrite linked_cons. intros [Hab Hl]%andb_true_iff. specialize (IH Hl).
  change (removelast (a :: b :: l)) with (a :: removelast (b :: l)).
  destruct l as [|c l]; [done|].
  change (removelast (b :: c :: l)) with (b :: removelast (c :: l)) in *.
  by rewrite linked_cons, Hab, IH.
Qed.

Lemma linked_shift head body d :
  linked (head :: body) = true →
  linked (addCell head (offset d) :: removelast (head :: body)) = true.
Proof.
  intros Hl. apply linked_removelast in Hl.
  destruct body as [|b body]; [done|].
  change (removelast (head :: b :: body))
    with (head :: removelast (b :: body)) in *.
  rewrite linked_cons, Hl, andb_true_r. apply Z.leb_le.
  rewrite manhattan_sym, manhattan_neighbour. lia.
Qed.

Lemma linked_grow (l : list Cell) tl :
  last l = Some tl → linked l = true → linked (l ++ [tl]) = true.
Proof.
  induction l as [|a l IH]; [done|]. destruct l as [|b l].
  - intros [= ->] _. cbn. rewrite manhattan_self. done.
  - rewrite last_cons_cons, linked_cons.
    intros Hlast [Hab Hl]%andb_true_iff.
    change ((a :: b :: l) ++ [tl]) with (a :: b :: (l ++ [tl])).
    rewrite linked_cons, Hab. by apply IH.
Qed.

Lemma chained_linked (l : list Cell) : chained l = true → linked l = true.
Proof.
  induction l as [|a l IH]; [done|]. destruct l as [|b l]; [done|].
  rewrite chained_cons, linked_cons.
  intros [Hab%Z.eqb_eq Hl]%andb_true_iff. rewrite (IH Hl), andb_true_r.
  apply Z.leb_le. lia.
Qed.

(** A tick keeps a consistent state consistent. *)
Lemma gameLoop_consistent policy fuel g st next st' g' :
  consistent st →
  gameLoop policy fuel g st = Returned (next, st', g') →
  consistent st'.
Proof.
  intros (Hne & Hlk & Hsb & Hos & Hob). unfold gameLoop.
  destruct (policy g (snake st) (orb st) gridSize (barriers st))
    as [[nextMove g1]| |]; [|done|done].
  change (mbind ?f (Returned ?a)) with (f a). cbn beta iota.
  destruct (snake st) as [|head body] eqn:Hsn; [done|].
  pose proof (linked_shift head body nextMove Hlk) as Hshift.
  assert (Hrl : ∀ c, c ∈ removelast (head :: body) → c ∈ head :: body)
    by apply elem_of_removelast.
  set (rl := removelast (head :: body)) in *. clearbody rl.
  set (newHead := addCell head (offset nextMove)) in *.
  destruct (decide (newHead ∈ head :: body ∨ newHead ∈ barriers st))
    as [Hcol|Hfree].
  { assert (bool_decide (newHead ∈ head :: body)
            || bool_decide (newHead ∈ barriers st) = true) as ->.
    { destruct Hcol as [Hc|Hc]; rewrite (bool_decide_eq_true_2 _ Hc);
        [done|apply orb_true_r]. }
    intros [= <- <- <-]. unfold consistent.
    cbn [snake orb barriers score highscore]. done. }
  assert ((newHead ∉ head :: body) ∧ (newHead ∉ barriers st)) as [Hns Hnb]
    by tauto.
  rewrite (bool_decide_eq_false_2 _ Hns), (bool_decide_eq_false_2 _ Hnb).
  cbn [Datatypes.orb].
  assert (Hsb1 : ∀ c, c ∈ newHead :: rl → c ∉ barriers st).
  { intros c [->|Hc]%elem_of_cons; [done|]. by apply Hsb, Hrl. }
  case_bool_decide as Horb.
  - unfold lastCell.
    destruct (last_cons_is_Some newHead rl) as [tl Htl]. rewrite Htl.
    change (mbind ?f (Returned ?a)) with (f a). cbn beta iota zeta.
    destruct (generateOrb fuel g1 gridSize ((newHead :: rl) ++ [tl])
                (barriers st)) as [[orb2 g2]| |] eqn:Hgen; [|done|done].
    change (mbind ?f (Returned ?a)) with (f a). cbn beta iota.
    intros [= <- <- <-]. unfold consistent.
    cbn [snake orb barriers score highscore].
    apply generateOrb_inv in Hgen as (k & _ & _ & Hc1 & Hc2 & _);
      [|done|done].
    change (newHead :: rl ++ [tl]) with ((newHead :: rl) ++ [tl]).
    split_and!; [done|by apply linked_grow| |done|done].
    intros c [Hc|Hc%list_elem_of_singleton]%elem_of_app; [by apply Hsb1|].
    subst c. by apply Hsb1, last_Some_elem_of.
  - intros [= <- <- <-]. unfold consistent.
    cbn [snake orb barriers score highscore].
    split_and!; [done|done|done| |done].
    intros [Heq|Hin]%elem_of_cons; [done|]. by apply Hos, Hrl.
Qed.

(** * The reset and the schedule *)

Lemma resetState_inv fuel g st st0 g0 :
  resetState fuel g st = Returned (st0, g0) →
  snake st0 = startSnake
  ∧ score st0 = 0
  ∧ highscore st0 = highscore st
  ∧ ∃ g1,
      generateBarriers fuel g gridSize startSnake (0, 0)
        = Returned (barriers st0, g1)
      ∧ generateOrb fuel g1 gridSize startSnake (barriers st0)
        = Returned (orb st0, g0).
Proof.
  unfold resetState.
  destruct (generateBarriers fuel g gridSize startSnake (0, 0))
    as [[bs g1]| |]; [|done|done].
  change (mbind ?f (Returned ?a)) with (f a). cbn beta iota.
  destruct (generateOrb fuel g1 gridSize startSnake bs)
    as [[c g2]| |] eqn:Hgen; [|done|done].
  change (mbind ?f (Returned ?a)) with (f a). cbn beta iota.
  intros [= <- <-]. cbn. split_and!; try done. by exists g1.
Qed.

Lemma resetState_post fuel g st st0 g0 :
  resetState fuel g st = Returned (st0, g0) →
  wellFormed gridSize st0 = true
  ∧ (∀ c, c ∈ barriers st0 →
          inBounds gridSize c = true ∧ (c ∉ startSnake) ∧ c ≠ (0, 0))
  ∧ Z.of_nat (size (barriers st0)) = Z.max 0 (maxBarrierCellsOf gridSize).
Proof.
  intros (Hsn & _ & _ & g1 & Hbar & Horb)%resetState_inv.
  unfold generateBarriers in Hbar.
  destruct (barrierLoop_inv gridSize startSnake (0, 0) fuel g ∅
              (barriers st0) g1) as [Hlaid Hsz];
    [set_solver | rewrite size_empty; lia | done |].
  apply generateOrb_inv in Horb as (k & _ & Hk & Hos & Hob & _);
    [|done|done].
  split_and!; [|done|done].
  unfold wellFormed. rewrite Hsn, !andb_true_iff.
  split_and!; [reflexivity | reflexivity | reflexivity | reflexivity |..].
  - apply forallb_forall. intros c Hc%list_elem_of_In.
    apply elem_of_elements in Hc. by apply Hlaid.
  - apply forallb_forall. intros c Hc%list_elem_of_In.
    apply negb_true_iff, bool_decide_eq_false. intros Hb.
    by apply Hlaid in Hb as (_ & ? & _).
  - rewrite Hk. by apply orbCandidate_inBounds.
  - by apply negb_true_iff, bool_decide_eq_false.
  - by apply negb_true_iff, bool_decide_eq_false.
Qed.

(** X8: the state that the assignments of [resetGame] build, whenever the
    two placement loops return, is well formed: the three-cell snake,
    exactly 100 barrier cells inside the grid and off the snake, none of
    them on (0,0), and an orb inside the grid off the snake and the
    barriers. *)
Theorem resetState_wellFormed fuel g st st0 g0 :
  resetState fuel g st = Returned (st0, g0) →
  wellFormed gridSize st0 = true
  ∧ size (barriers st0) = 100%nat
  ∧ ((0, 0) ∉ barriers st0).
Proof.
  intros (Hwf & Hlaid & Hsz)%resetState_post. split_and!; [done| |].
  - change (Z.max 0 (maxBarrierCellsOf gridSize)) with 100 in Hsz. lia.
  - intros Hin. by apply Hlaid in Hin as (_ & _ & ?).
Qed.

Lemma resetState_wellFormed_witness :
  ∃ st0 g0,
    resetState 20 tilingDraws coiledState = Returned (st0, g0)
    ∧ wellFormed gridSize st0 = true.
Proof.
  destruct (resetState 20 tilingDraws coiledState) as [[st0 g0]| |]
    eqn:Hreset.
  - exists st0, g0. split; [reflexivity|].
    apply (resetState_wellFormed 20 tilingDraws coiledState st0 g0 Hreset).
  - vm_compute in Hreset. discriminate Hreset.
  - vm_compute in Hreset. discriminate Hreset.
Defined.

Lemma wellFormed_consistent st : wellFormed gridSize st = true → consistent st.
Proof.
  unfold wellFormed, consistent.
  rewrite !andb_true_iff, !negb_true_iff, !bool_decide_eq_false,
    bool_decide_eq_true.
  intros ((((((((Hne & _) & Hch) & _) & _) & Hsb) & _) & Hos) & Hob).
  split_and!; [done|by apply chained_linked| |done|done].
  intros c Hc%list_elem_of_In. rewrite forallb_forall in Hsb.
  by apply Hsb, negb_true_iff, bool_decide_eq_false in Hc.
Qed.

Lemma resetGame_step policy fuel g st next st' g' :
  resetGame policy fuel g st = Returned (next, st', g') →
  ∃ st0 g0,
    resetState fuel g st = Returned (st0, g0)
    ∧ gameLoop policy fuel g0 st0 = Returned (next, st', g').
Proof.
  unfold resetGame.
  destruct (resetState fuel g st) as [[st0 g0]| |]; [|done|done].
  change (mbind ?f (Returned ?a)) with (f a). cbn beta iota. eauto.
Qed.

Lemma run_step policy k fuel g st next out :
  run policy (S k) fuel g st next = Returned out →
  ∃ next1 st1 g1,
    match next with
    | NextTick => gameLoop policy fuel g st
    | Reset => resetGame policy fuel g st
    end = Returned (next1, st1, g1)
    ∧ run policy k fuel g1 st1 next1 = Returned out.
Proof.
  cbn [run].
  destruct (match next with
            | NextTick => gameLoop policy fuel g st
            | Reset => resetGame policy fuel g st
            end) as [[[next1 st1] g1]| |]; [|done|done].
  change (mbind ?f (Returned ?a)) with (f a). cbn beta iota. eauto.
Qed.

Lemma gameLoop_highscore_le policy fuel g st next st' g' :
  gameLoop policy fuel g st = Returned (next, st', g') →
  highscore st ≤ highscore st'.
Proof.
  unfold gameLoop.
  destruct (policy g (snake st) (orb st) gridSize (barriers st))
    as [[nextMove g2]| |]; [|done|done].
  change (mbind ?f (Returned ?a)) with (f a). cbn beta iota.
  destruct (snake st) as [|head body]; [done|].
  destruct (bool_decide _ || bool_decide _);
    [intros [= <- <- <-]; cbn; lia|].
  destruct (bool_decide _); [|intros [= <- <- <-]; cbn; lia].
  destruct (lastCell _) as [tl| |]; [|done|done].
  change (mbind ?f (Returned ?a)) with (f a). cbn beta iota zeta.
  destruct (generateOrb _ _ _ _ _) as [[orb2 g3]| |]; [|done|done].
  change (mbind ?f (Returned ?a)) with (f a). cbn beta iota.
  intros [= <- <- <-]. cbn. lia.
Qed.

(** X9: under any policy, over any number of scheduled callbacks (ticks
    and resets), a consistent state (a non-empty linked snake off the
    barriers, the orb off both) stays consistent and the high score never
    decreases. *)
Theorem run_keeps policy k : ∀ fuel g st next next' st' g',
  consistent st →
  run policy k fuel g st next = Returned (next', st', g') →
  consistent st' ∧ highscore st ≤ highscore st'.
Proof.
  induction k as [|k IH]; intros fuel g st next next' st' g' Hcons.
  - cbn [run]. intros [= <- <- <-]. split; [done|lia].
  - intros (next1 & st1 & g1 & Hstep & Hrun)%run_step.
    destruct next.
    + pose proof (gameLoop_consistent _ _ _ _ _ _ _ Hcons Hstep) as Hcons1.
      pose proof (gameLoop_highscore_le _ _ _ _ _ _ _ Hstep) as Hhs.
      destruct (IH _ _ _ _ _ _ _ Hcons1 Hrun). split; [done|lia].
    + apply resetGame_step in Hstep as (st0 & g0 & Hreset & Hstep).
      pose proof (resetState_inv _ _ _ _ _ Hreset) as (_ & _ & Hhs0 & _).
      assert (consistent st0) as Hcons0.
      { apply wellFormed_consistent.
        by apply (resetState_post fuel g st st0 g0). }
      pose proof (gameLoop_consistent _ _ _ _ _ _ _ Hcons0 Hstep) as Hcons1.
      pose proof (gameLoop_highscore_le _ _ _ _ _ _ _ Hstep) as Hhs.
      destruct (IH _ _ _ _ _ _ _ Hcons1 Hrun). split; [done|lia].
Qed.

Lemma coiledState_consistent : consistent coiledState.
Proof.
  split_and!; [done | reflexivity | | |].
  - intros c _. apply not_elem_of_empty.
  - apply (bool_decide_eq_false_1 _). vm_compute. reflexivity.
  - apply not_elem_of_empty.
Defined.

Lemma run_keeps_witness :
  ∃ next' st' g',
    run Heuristic.heuristicPolicy 2 20 tilingDraws coiledState NextTick
      = Returned (next', st', g')
    ∧ consistent st' ∧ 0 ≤ highscore st'.
Proof.
  destruct (run Heuristic.heuristicPolicy 2 20 tilingDraws coiledState
              NextTick) as [[[next' st'] g']| |] eqn:Hrun.
  - exists next', st', g'. split; [reflexivity|].
    exact (run_keeps Heuristic.heuristicPolicy 2 20 tilingDraws coiledState
             NextTick next' st' g' coiledState_consistent Hrun).
  - vm_compute in Hrun. discriminate Hrun.
  - vm_compute in Hrun. discriminate Hrun.
Defined.

(** * The one-step policies at their limits *)

Lemma heuristicPolicy_cases g head body orb gridSize barriers :
  (∃ d,
     Heuristic.heuristicPolicy g (head :: body) orb gridSize barriers
       = Returned (d, g)
     ∧ Heuristic.isValid (head :: body) gridSize barriers
         (addCell head (offset d)) = true)
  ∨ ((∀ d, Heuristic.isValid (head :: body) gridSize barriers
             (addCell head (offset d)) = false)
     ∧ Heuristic.heuristicPolicy g (head :: body) orb gridSize barriers
       = choice g [UP; DOWN; LEFT; RIGHT]).
Proof.
  unfold Heuristic.heuristicPolicy.
  pose proof (Heuristic_validMoves_spec head (head :: body) orb gridSize
                barriers) as Hspec.
  destruct (Heuristic.validMoves head (head :: body) orb gridSize barriers)
    as [|v vs].
  - right. split; [|done]. intros d. apply not_true_iff_false. intros Hv.
    eapply elem_of_nil, Hspec. eauto.
  - left.
    pose proof (firstBest_elem_of (λ x y : Direction * Z, x.2 <? y.2) v vs)
      as Hin.
    destruct (firstBest _ v vs) as [d s]. apply Hspec in Hin as [Hv _].
    by exists d.
Qed.

Lemma hybridPolicy_cases g head body orb gridSize barriers :
  (∃ d,
     Hybrid.hybridPolicy g (head :: body) orb gridSize barriers
       = Returned (d, g)
     ∧ Hybrid.isValid (head :: body) gridSize barriers
         (addCell head (offset d)) = true)
  ∨ ((∀ d, Hybrid.isValid (head :: body) gridSize barriers
             (addCell head (offset d)) = false)
     ∧ Hybrid.hybridPolicy g (head :: body) orb gridSize barriers
       = choice g [UP; DOWN; LEFT; RIGHT]).
Proof.
  unfold Hybrid.hybridPolicy.
  destruct (scoreMoves_spec head (head :: body) orb gridSize barriers moves)
    as (vms & Hret & Hspec).
  rewrite (bind_Returned _ _ _ Hret).
  destruct vms as [|v vs].
  - right. split; [|done]. intros d. apply not_true_iff_false. intros Hv.
    destruct (floodFillArea_counts (head :: body) barriers gridSize
                (addCell head (offset d))) as (R & Harea & _).
    apply (elem_of_nil (d, manhattanDistance (addCell head (offset d)) orb,
                        Z.of_nat (size R),
                        Hybrid.tailDistanceOf (Hybrid.tailOf (head :: body))
                          (addCell head (offset d)))).
    apply Hspec. exists (offset d).
    split_and!; [by apply elem_of_moves|done..].
  - left.
    pose proof (firstBest_elem_of
                  (λ x y : Hybrid.Move,
                     Hybrid.lexLtb (Hybrid.moveKey y) (Hybrid.moveKey x))
                  v vs) as Hin.
    destruct (firstBest _ v vs) as [[[d p] a] t].
    apply Hspec in Hin as (off & Hoff%elem_of_moves & Hv & _).
    cbn in Hoff. subst off. by exists d.
Qed.

(** What a tick does with a direction whose cell is off [snake[:-1]] and off
    the barriers: the only cell it can hit is the tail. *)
Lemma gameLoop_valid_move policy fuel g st head body d g1 :
  snake st = head :: body →
  policy g (snake st) (orb st) gridSize (barriers st) = Returned (d, g1) →
  addCell head (offset d) ∉ removelast (snake st) →
  addCell head (offset d) ∉ barriers st →
  (addCell head (offset d) ∈ snake st →
   last (snake st) = Some (addCell head (offset d))
   ∧ gameLoop policy fuel g st
     = Returned (Reset,
                 mkState (snake st) (orb st) (barriers st) (score st - 1)
                   (Z.max (highscore st) (score st - 1)), g1))
  ∧ (addCell head (offset d) ∉ snake st →
     ∀ next st' g',
       gameLoop policy fuel g st = Returned (next, st', g') →
       next = NextTick ∧ hd_error (snake st') = Some (addCell head (offset d))).
Proof.
  intros Hsn Hpol Hrl Hnb. unfold gameLoop.
  rewrite (bind_Returned _ _ _ Hpol). cbn beta iota. rewrite Hsn.
  rewrite <- Hsn. split.
  - intros Hin. split; [by apply elem_of_not_removelast|].
    by rewrite (bool_decide_eq_true_2 _ Hin).
  - intros Hns next st' g'.
    rewrite (bool_decide_eq_false_2 _ Hns), (bool_decide_eq_false_2 _ Hnb).
    cbn [Datatypes.orb].
    destruct (bool_decide (addCell head (offset d) = orb st)).
    + destruct (lastCell _) as [tl| |]; [|done|done].
      change (mbind ?f (Returned ?a)) with (f a). cbn beta iota zeta.
      destruct (generateOrb _ _ _ _ _) as [[orb2 g2]| |]; [|done|done].
      change (mbind ?f (Returned ?a)) with (f a). cbn beta iota.
      by intros [= <- <- <-].
    + by intros [= <- <- <-].
Qed.

(** X10: while some direction leads to a valid cell, a tick played by
    [heuristicPolicy] or by [hybridPolicy] puts the head on a cell of the
    grid that is no barrier, and it can end the episode in one way only: by
    stepping on the snake's own tail cell. *)
Theorem onestep_dies_on_tail_only fuel g st head body d0 :
  snake st = head :: body →
  Heuristic.isValid (snake st) gridSize (barriers st)
    (addCell head (offset d0)) = true →
  (∃ d,
     Heuristic.heuristicPolicy g (snake st) (orb st) gridSize (barriers st)
       = Returned (d, g)
     ∧ inBounds gridSize (addCell head (offset d)) = true
     ∧ (addCell head (offset d) ∉ barriers st)
     ∧ ∀ next st' g',
         gameLoop Heuristic.heuristicPolicy fuel g st
           = Returned (next, st', g') →
         (next = Reset ∧ last (snake st) = Some (addCell head (offset d)))
         ∨ (next = NextTick
            ∧ hd_error (snake st') = Some (addCell head (offset d))))
  ∧ (∃ d,
       Hybrid.hybridPolicy g (snake st) (orb st) gridSize (barriers st)
         = Returned (d, g)
       ∧ inBounds gridSize (addCell head (offset d)) = true
       ∧ (addCell head (offset d) ∉ barriers st)
       ∧ ∀ next st' g',
           gameLoop Hybrid.hybridPolicy fuel g st
             = Returned (next, st', g') →
           (next = Reset ∧ last (snake st) = Some (addCell head (offset d)))
           ∨ (next = NextTick
              ∧ hd_error (snake st') = Some (addCell head (offset d)))).
Proof.
  intros Hsn Hd0. split.
  - rewrite Hsn in *.
    destruct (heuristicPolicy_cases g head body (orb st) gridSize (barriers st))
      as [(d & Hpol & Hv)|[Hnone _]]; [|by rewrite Hnone in Hd0].
    exists d. apply Heuristic_isValid_spec in Hv as (Hb & Hrl & Hnb).
    split_and!; [done..|]. intros next st' g' Hrun.
    rewrite <- Hsn in Hpol, Hrl.
    destruct (gameLoop_valid_move Heuristic.heuristicPolicy fuel g st head body
                d g Hsn Hpol Hrl Hnb) as [Hhit Hmiss].
    rewrite <- Hsn. destruct (decide (addCell head (offset d) ∈ snake st)) as [Hin|Hin].
    + destruct (Hhit Hin) as [Hlast Heq]. rewrite Heq in Hrun.
      injection Hrun as <- _ _. by left.
    + right. by eapply Hmiss.
  - rewrite Hsn in *.
    destruct (hybridPolicy_cases g head body (orb st) gridSize (barriers st))
      as [(d & Hpol & Hv)|[Hnone _]]; [|by rewrite Hnone in Hd0].
    exists d. apply Hybrid_isValid_spec in Hv as (Hb & Hrl & Hnb).
    split_and!; [done..|]. intros next st' g' Hrun.
    rewrite <- Hsn in Hpol, Hrl.
    destruct (gameLoop_valid_move Hybrid.hybridPolicy fuel g st head body
                d g Hsn Hpol Hrl Hnb) as [Hhit Hmiss].
    rewrite <- Hsn. destruct (decide (addCell head (offset d) ∈ snake st)) as [Hin|Hin].
    + destruct (Hhit Hin) as [Hlast Heq]. rewrite Heq in Hrun.
      injection Hrun as <- _ _. by left.
    + right. by eapply Hmiss.
Qed.

Lemma onestep_dies_on_tail_only_witness :
  ∃ d,
    Heuristic.heuristicPolicy countingDraws (snake coiledState)
      (orb coiledState) gridSize (barriers coiledState)
      = Returned (d, countingDraws)
    ∧ inBounds gridSize (addCell (1, 1) (offset d)) = true.
Proof.
  destruct (onestep_dies_on_tail_only 0 countingDraws coiledState (1, 1)
              [(2, 1); (2, 2); (1, 2)] UP)
    as [(d & Hpol & Hin & _) _].
  - reflexivity.
  - vm_compute. reflexivity.
  - exists d. split; [exact Hpol | exact Hin].
Defined.

Lemma gameLoop_hit policy fuel g st head body d g1 :
  snake st = head :: body →
  policy g (snake st) (orb st) gridSize (barriers st) = Returned (d, g1) →
  addCell head (offset d) ∈ snake st ∨ addCell head (offset d) ∈ barriers st →
  gameLoop policy fuel g st
  = Returned (Reset,
              mkState (snake st) (orb st) (barriers st) (score st - 1)
                (Z.max (highscore st) (score st - 1)), g1).
Proof.
  intros Hsn Hpol Hcol. unfold gameLoop.
  rewrite (bind_Returned _ _ _ Hpol). cbn beta iota. rewrite Hsn.
  rewrite <- Hsn.
  destruct Hcol as [Hc|Hc]; rewrite (bool_decide_eq_true_2 _ Hc);
    [done|by rewrite orb_true_r].
Qed.

Lemma gameLoop_miss policy fuel g st head body d g1 :
  snake st = head :: body →
  policy g (snake st) (orb st) gridSize (barriers st) = Returned (d, g1) →
  addCell head (offset d) ∉ snake st →
  addCell head (offset d) ∉ barriers st →
  addCell head (offset d) ≠ orb st →
  gameLoop policy fuel g st
  = Returned (NextTick,
              mkState (addCell head (offset d) :: removelast (snake st))
                (orb st) (barriers st) (score st - 1) (highscore st), g1).
Proof.
  intros Hsn Hpol Hns Hnb Hno. unfold gameLoop.
  rewrite (bind_Returned _ _ _ Hpol). cbn beta iota. rewrite Hsn.
  rewrite <- Hsn.
  by rewrite (bool_decide_eq_false_2 _ Hns), (bool_decide_eq_false_2 _ Hnb),
    (bool_decide_eq_false_2 _ Hno).
Qed.

(** A tick played with a direction whose cell fails the validity test of
    the one-step policies, the orb being inside the grid. *)
Lemma gameLoop_invalid_move policy fuel g st head body d g1 :
  snake st = head :: body →
  policy g (snake st) (orb st) gridSize (barriers st) = Returned (d, g1) →
  Heuristic.isValid (snake st) gridSize (barriers st)
    (addCell head (offset d)) = false →
  inBounds gridSize (orb st) = true →
  ∃ next st',
    gameLoop policy fuel g st = Returned (next, st', g1)
    ∧ (next = Reset
       ∨ (next = NextTick
          ∧ hd_error (snake st') = Some (addCell head (offset d))
          ∧ inBounds gridSize (addCell head (offset d)) = false)).
Proof.
  intros Hsn Hpol Hinv Ho.
  destruct (decide (addCell head (offset d) ∈ snake st
                    ∨ addCell head (offset d) ∈ barriers st)) as [Hcol|Hfree].
  { eexists _, _. split; [by eapply gameLoop_hit|by left]. }
  assert ((addCell head (offset d) ∉ snake st)
          ∧ (addCell head (offset d) ∉ barriers st)) as [Hns Hnb] by tauto.
  assert (Hout : inBounds gridSize (addCell head (offset d)) = false).
  { apply not_true_iff_false. intros Hin.
    apply not_true_iff_false in Hinv. apply Hinv.
    apply Heuristic_isValid_spec. split_and!; [done| |done].
    intros ?%elem_of_removelast. done. }
  eexists _, _. split; [eapply gameLoop_miss; [done..|congruence]|].
  right. done.
Qed.

(** X11: when no direction leads to a valid cell, [heuristicPolicy] and
    [hybridPolicy] play the direction drawn by [random.choice], and (the orb
    being inside the grid) the tick either ends the episode or takes the
    head outside the grid. *)
Theorem onestep_no_valid_move fuel g st head body :
  snake st = head :: body →
  (∀ d, Heuristic.isValid (snake st) gridSize (barriers st)
          (addCell head (offset d)) = false) →
  inBounds gridSize (orb st) = true →
  ∃ d,
    choice g [UP; DOWN; LEFT; RIGHT] = Returned (d, rngNext g)
    ∧ Heuristic.heuristicPolicy g (snake st) (orb st) gridSize (barriers st)
      = Returned (d, rngNext g)
    ∧ Hybrid.hybridPolicy g (snake st) (orb st) gridSize (barriers st)
      = Returned (d, rngNext g)
    ∧ (∃ next st',
         gameLoop Heuristic.heuristicPolicy fuel g st
           = Returned (next, st', rngNext g)
         ∧ (next = Reset
            ∨ (next = NextTick
               ∧ hd_error (snake st') = Some (addCell head (offset d))
               ∧ inBounds gridSize (addCell head (offset d)) = false)))
    ∧ (∃ next st',
         gameLoop Hybrid.hybridPolicy fuel g st
           = Returned (next, st', rngNext g)
         ∧ (next = Reset
            ∨ (next = NextTick
               ∧ hd_error (snake st') = Some (addCell head (offset d))
               ∧ inBounds gridSize (addCell head (offset d)) = false))).
Proof.
  intros Hsn Hnone Ho.
  destruct (choice_directions g) as (d & Hch & _). exists d.
  change (moves.*1) with [UP; DOWN; LEFT; RIGHT] in Hch.
  assert (Hheur : Heuristic.heuristicPolicy g (snake st) (orb st) gridSize
                    (barriers st) = Returned (d, rngNext g)).
  { rewrite Hsn in *.
    destruct (heuristicPolicy_cases g head body (orb st) gridSize (barriers st))
      as [(d' & _ & Hv)|[_ ->]]; [by rewrite Hnone in Hv|done]. }
  assert (Hhyb : Hybrid.hybridPolicy g (snake st) (orb st) gridSize
                   (barriers st) = Returned (d, rngNext g)).
  { rewrite Hsn in *.
    destruct (hybridPolicy_cases g head body (orb st) gridSize (barriers st))
      as [(d' & _ & Hv)|[_ ->]]; [|done].
    change (Hybrid.isValid ?a ?b ?c ?x) with (Heuristic.isValid a b c x) in Hv.
    by rewrite Hnone in Hv. }
  split_and!; [done..| |].
  - by eapply gameLoop_invalid_move.
  - by eapply gameLoop_invalid_move.
Qed.

Lemma onestep_no_valid_move_witness :
  ∃ d,
    Heuristic.heuristicPolicy countingDraws (snake corneredState)
      (orb corneredState) gridSize (barriers corneredState)
    = Returned (d, rngNext countingDraws).
Proof.
  destruct (onestep_no_valid_move 0 countingDraws corneredState (0, 0)
              [(1, 0); (1, 1)])
    as (d & _ & Hpol & _).
  - reflexivity.
  - intros d. destruct d; vm_compute; reflexivity.
  - reflexivity.
  - exists d. exact Hpol.
Defined.

(** * A* on any board *)

Lemma walk_cons c d path :
  walk c (d :: path) = walk (addCell c (offset d)) path.
Proof. reflexivity. Qed.

Lemma validWalk_snoc valid path : ∀ c d,
  validWalk valid c (path ++ [d])
  = validWalk valid c path && valid (addCell (walk c path) (offset d)).
Proof.
  induction path as [|d' path IH]; intros c d; cbn [validWalk app].
  - by rewrite andb_true_r.
  - by rewrite IH, walk_cons, andb_assoc.
Qed.

Section AnyBoard.

Context (g : rng) (snake : list Cell) (orb gridSize : Cell)
  (barriers : gset Cell) (head : Cell).

Local Abbreviation valid := (AStar.isValid snake gridSize barriers).

Lemma starInv_init :
  starInv valid head orb [(manhattanDistance head orb, 0, head, [])] ∅.
Proof.
  split.
  - intros f gS c path [= -> -> -> ->]%list_elem_of_singleton. cbn.
    split_and!; [lia|done..].
  - set_solver.
  - right. apply list_elem_of_here.
  - set_solver.
Qed.

(** Along a walk over valid cells that ends on a cell not yet expanded, some
    open tuple has an estimate within the length of the walk plus the
    distance left. *)
Lemma starInv_frontier openSet visited :
  starInv valid head orb openSet visited →
  ∀ q s b,
    (s ∈ visited →
     ∃ p, walk head p = s ∧ validWalk valid head p = true
          ∧ Z.of_nat (length p) ≤ b) →
    (s ∉ visited →
     ∃ e, e ∈ openSet ∧ AStar.entryCell e = s ∧ entryGScore e ≤ b) →
    validWalk valid s q = true →
    walk s q ∉ visited →
    ∃ e, e ∈ openSet
         ∧ AStar.fScore e
           ≤ b + Z.of_nat (length q) + manhattanDistance (walk s q) orb.
Proof.
  intros [Hentry Horb Hhead Hclosed].
  assert (Hopen : ∀ s b,
    s ∉ visited →
    (s ∉ visited →
     ∃ e, e ∈ openSet ∧ AStar.entryCell e = s ∧ entryGScore e ≤ b) →
    ∃ e, e ∈ openSet ∧ AStar.fScore e ≤ b + manhattanDistance s orb).
  { intros s b Hs H2. destruct (H2 Hs) as ([[[f gS] c] path] & He & Hc & Hg).
    cbn in Hc, Hg. subst c. exists (f, gS, s, path). split; [done|].
    destruct (Hentry _ _ _ _ He) as (-> & _). cbn. lia. }
  induction q as [|d q IH]; intros s b H1 H2 Hq Hend.
  - cbn in Hend. destruct (Hopen s b Hend H2) as (e & He & Hf).
    exists e. split; [done|]. cbn. lia.
  - rewrite walk_cons in *. cbn [validWalk] in Hq.
    apply andb_true_iff in Hq as [Hv Hq].
    destruct (decide (s ∈ visited)) as [Hs|Hs].
    + destruct (H1 Hs) as (p' & Hp' & Hvp' & Hlen').
      destruct (Hclosed s Hs) as (p & Hp & Hvp & Hopt & Hnb).
      specialize (Hopt p' Hp' Hvp').
      destruct (IH (addCell s (offset d)) (b + 1)) as (e & He & Hf);
        [| |done|done|].
      * intros _. exists (p ++ [d]). rewrite walk_snoc, Hp, validWalk_snoc.
        rewrite Hvp, Hp, Hv, length_app. cbn. split_and!; [done|done|lia].
      * intros Hnv. destruct (Hnb d Hv) as [?|(e & He & Hc & Hg)]; [done|].
        exists e. split_and!; [done|done|lia].
      * exists e. split; [done|]. cbn [length]. lia.
    + destruct (Hopen s b Hs H2) as (e & He & Hf). exists e. split; [done|].
      pose proof (manhattan_walk q (addCell s (offset d)) orb).
      pose proof (manhattan_step s d orb). cbn [length]. lia.
Qed.

Lemma starInv_open openSet visited q :
  starInv valid head orb openSet visited →
  validWalk valid head q = true →
  walk head q ∉ visited →
  ∃ e, e ∈ openSet
       ∧ AStar.fScore e
         ≤ Z.of_nat (length q) + manhattanDistance (walk head q) orb.
Proof.
  intros Hinv Hq Hend.
  destruct (starInv_frontier openSet visited Hinv q head 0) as (e & He & Hf);
    [| |done|done|by exists e].
  - intros _. by exists [].
  - intros Hnv. destruct (star_head _ _ _ _ _ Hinv) as [?|Hh]; [done|].
    eexists. split; [exact Hh|]. done.
Qed.

(** The tuple taken out of [openSet] records a shortest walk to its cell,
    unless that cell has been expanded before. *)
Lemma starInv_popped openSet visited f gS c path rest :
  starInv valid head orb openSet visited →
  openSet ≡ₚ (f, gS, c, path) :: rest →
  (∀ e', e' ∈ openSet → f ≤ AStar.fScore e') →
  c ∉ visited →
  walk head path = c
  ∧ validWalk valid head path = true
  ∧ ∀ q, walk head q = c → validWalk valid head q = true →
         (length path ≤ length q)%nat.
Proof.
  intros Hinv Hp Hmin Hc.
  assert (Hin : (f, gS, c, path) ∈ openSet)
    by (rewrite Hp; apply list_elem_of_here).
  destruct (star_entry _ _ _ _ _ Hinv _ _ _ _ Hin) as (Hf & HgS & Hw & Hvw).
  split_and!; [done|done|]. intros q Hq Hvq.
  destruct (starInv_open openSet visited q Hinv Hvq) as (e & He & Hfe);
    [by rewrite Hq|].
  specialize (Hmin e He). rewrite Hq in Hfe. lia.
Qed.

Lemma starInv_skip openSet visited f gS c path rest :
  starInv valid head orb openSet visited →
  openSet ≡ₚ (f, gS, c, path) :: rest →
  c ∈ visited →
  starInv valid head orb rest visited.
Proof.
  intros [Hentry Horb Hhead Hclosed] Hp Hc. split; [|done|..].
  - intros f' gS' c' path' Hin. apply Hentry. rewrite Hp.
    by apply list_elem_of_further.
  - destruct Hhead as [?|Hh]; [by left|]. rewrite Hp in Hh.
    apply elem_of_cons in Hh as [Heq|Hh]; [|by right].
    left. by injection Heq as _ _ -> _.
  - intros v Hv. destruct (Hclosed v Hv) as (p & Hw & Hvw & Hopt & Hnb).
    exists p. split_and!; [done..|]. intros d Hd.
    destruct (Hnb d Hd) as [?|(e & He & Hcell & Hg)]; [by left|].
    rewrite Hp in He. apply elem_of_cons in He as [->|He].
    + left. by rewrite <- Hcell.
    + right. by exists e.
Qed.

Lemma starInv_expand openSet visited f gS c path rest :
  starInv valid head orb openSet visited →
  openSet ≡ₚ (f, gS, c, path) :: rest →
  (∀ e', e' ∈ openSet → f ≤ AStar.fScore e') →
  c ≠ orb → c ∉ visited →
  starInv valid head orb
    (rest ++ AStar.expand snake orb gridSize barriers ({[c]} ∪ visited)
               gS c path)
    ({[c]} ∪ visited).
Proof.
  intros Hinv Hp Hmin Hne Hc.
  destruct (starInv_popped _ _ _ _ _ _ _ Hinv Hp Hmin Hc)
    as (Hw & Hvw & Hopt).
  assert (Hin : (f, gS, c, path) ∈ openSet)
    by (rewrite Hp; apply list_elem_of_here).
  destruct (star_entry _ _ _ _ _ Hinv _ _ _ _ Hin) as (Hf & HgS & _ & _).
  destruct Hinv as [Hentry Horb Hhead Hclosed]. split.
  - intros f' gS' c' path' [Hin'|Hin']%elem_of_app.
    + apply Hentry. rewrite Hp. by apply list_elem_of_further.
    + apply elem_of_expand in Hin' as (d & Hv & _ & Heq).
      injection Heq as -> -> -> ->.
      rewrite walk_snoc, validWalk_snoc, Hw, Hvw, Hv, length_app. cbn.
      split_and!; [done|lia|done|done].
  - set_solver.
  - destruct Hhead as [?|Hh]; [left; set_solver|]. rewrite Hp in Hh.
    apply elem_of_cons in Hh as [Heq|Hh].
    + left. injection Heq as _ _ -> _. set_solver.
    + right. apply elem_of_app. by left.
  - intros v [->%elem_of_singleton|Hv]%elem_of_union.
    + exists path. split_and!; [done..|]. intros d Hd.
      destruct (decide (addCell c (offset d) ∈ {[c]} ∪ visited)) as [?|Hnv];
        [by left|].
      right.
      exists (gS + 1 + manhattanDistance (addCell c (offset d)) orb, gS + 1,
              addCell c (offset d), path ++ [d]).
      split_and!; [|done|cbn; lia].
      apply elem_of_app. right. apply elem_of_expand. by exists d.
    + destruct (Hclosed v Hv) as (p & Hwp & Hvp & Hoptp & Hnb).
      exists p. split_and!; [done..|]. intros d Hd.
      destruct (Hnb d Hd) as [?|(e & He & Hcell & Hg)]; [left; set_solver|].
      rewrite Hp in He. apply elem_of_cons in He as [->|He].
      * left. cbn in Hcell. set_solver.
      * right. exists e. split_and!; [|done|done].
        apply elem_of_app. by left.
Qed.

(** When a walk over valid cells leads from the head to the orb, the search
    returns the first step of a shortest one. *)
Lemma search_shortest fuel q0 :
  head ≠ orb →
  walk head q0 = orb → validWalk valid head q0 = true →
  (AStar.searchFuel snake gridSize barriers ≤ fuel)%nat →
  ∃ d p,
    AStar.search fuel g snake orb gridSize barriers
      [(manhattanDistance head orb, 0, head, [])] ∅ = Returned (d, g)
    ∧ walk head (d :: p) = orb
    ∧ validWalk valid head (d :: p) = true
    ∧ ∀ q, walk head q = orb → validWalk valid head q = true →
           (length (d :: p) ≤ length q)%nat.
Proof.
  intros Hne Hq0 Hvq0 Hfuel.
  apply (search_rule g snake orb gridSize barriers head
           (starInv valid head orb)
           (λ o, ∃ d p,
              o = Returned (d, g)
              ∧ walk head (d :: p) = orb
              ∧ validWalk valid head (d :: p) = true
              ∧ ∀ q, walk head q = orb → validWalk valid head q = true →
                     (length (d :: p) ≤ length q)%nat)).
  - intros visited Hinv.
    destruct (starInv_open [] visited q0 Hinv Hvq0) as (e & ?%elem_of_nil & _);
      [|done].
    rewrite Hq0. apply (star_orb _ _ _ _ _ Hinv).
  - intros openSet visited f gS path rest Hinv Hp Hmin.
    destruct (starInv_popped _ _ _ _ _ _ _ Hinv Hp Hmin
                (star_orb _ _ _ _ _ Hinv)) as (Hw & Hvw & Hopt).
    destruct path as [|d p]; [by cbn in Hw|].
    exists d, p. done.
  - intros openSet visited f gS c path rest Hinv Hp _ _ Hc.
    by eapply starInv_skip.
  - intros openSet visited f gS c path rest Hinv Hp Hmin Hne' Hc.
    by eapply starInv_expand.
  - by apply searchInv_init.
  - apply starInv_init.
  - by apply search_fuel_enough.
Qed.

(** When no walk over valid cells leads from the head to the orb, the search
    ends on the drawn direction. *)
Lemma search_fallback fuel :
  (∀ q, walk head q = orb → validWalk valid head q = false) →
  (AStar.searchFuel snake gridSize barriers ≤ fuel)%nat →
  AStar.search fuel g snake orb gridSize barriers
    [(manhattanDistance head orb, 0, head, [])] ∅
  = choice g [UP; DOWN; LEFT; RIGHT].
Proof.
  intros Hnone Hfuel.
  apply (search_rule g snake orb gridSize barriers head
           (starInv valid head orb)
           (λ o, o = choice g [UP; DOWN; LEFT; RIGHT])).
  - done.
  - intros openSet visited f gS path rest Hinv Hp _.
    assert (Hin : (f, gS, orb, path) ∈ openSet)
      by (rewrite Hp; apply list_elem_of_here).
    destruct (star_entry _ _ _ _ _ Hinv _ _ _ _ Hin) as (_ & _ & Hw & Hvw).
    by rewrite (Hnone path) in Hvw.
  - intros openSet visited f gS c path rest Hinv Hp _ _ Hc.
    by eapply starInv_skip.
  - intros openSet visited f gS c path rest Hinv Hp Hmin Hne' Hc.
    by eapply starInv_expand.
  - by apply searchInv_init.
  - apply starInv_init.
  - by apply search_fuel_enough.
Qed.

End AnyBoard.

(** X12: on any board, when the head is not on the orb and some walk over
    valid cells (in bounds, off the whole snake, off the barriers) leads
    from the head to the orb, [aStarPolicy] returns, without drawing, the
    first step of a shortest such walk; when there is none it returns the
    direction drawn by [random.choice]; and when the head is on the orb it
    returns UP. *)
Theorem aStarPolicy_shortest g head body orb gridSize barriers :
  (head ≠ orb →
   ∀ q0,
     walk head q0 = orb →
     validWalk (AStar.isValid (head :: body) gridSize barriers) head q0
       = true →
     ∃ d p,
       AStar.aStarPolicy g (head :: body) orb gridSize barriers
         = Returned (d, g)
       ∧ walk head (d :: p) = orb
       ∧ validWalk (AStar.isValid (head :: body) gridSize barriers) head
           (d :: p) = true
       ∧ ∀ q,
           walk head q = orb →
           validWalk (AStar.isValid (head :: body) gridSize barriers) head q
             = true →
           (length (d :: p) ≤ length q)%nat)
  ∧ ((∀ q, walk head q = orb →
           validWalk (AStar.isValid (head :: body) gridSize barriers) head q
             = false) →
     AStar.aStarPolicy g (head :: body) orb gridSize barriers
       = choice g [UP; DOWN; LEFT; RIGHT])
  ∧ (head = orb →
     AStar.aStarPolicy g (head :: body) orb gridSize barriers
       = Returned (UP, g)).
Proof.
  split_and!.
  - intros Hne q0 Hq0 Hvq0. unfold AStar.aStarPolicy, AStar.aStarPolicyFuel.
    by eapply search_shortest.
  - intros Hnone. unfold AStar.aStarPolicy, AStar.aStarPolicyFuel.
    by apply search_fallback.
  - intros ->. unfold AStar.aStarPolicy, AStar.aStarPolicyFuel.
    unfold AStar.searchFuel. rewrite Nat.add_comm. cbn [Nat.add AStar.search].
    cbn [AStar.sortByKey foldr AStar.insertByKey].
    by rewrite bool_decide_eq_true_2.
Qed.

Lemma aStarPolicy_shortest_witness :
  ∃ d p,
    AStar.aStarPolicy countingDraws (snake openState) (orb openState) gridSize
      (barriers openState) = Returned (d, countingDraws)
    ∧ walk (5, 5) (d :: p) = (7, 3)
    ∧ (length (d :: p) ≤ 4)%nat.
Proof.
  destruct (aStarPolicy_shortest countingDraws (5, 5) [(5, 6); (5, 7)] (7, 3)
              gridSize ∅) as [Hfound _].
  destruct (Hfound ltac:(discriminate) [UP; UP; RIGHT; RIGHT])
    as (d & p & Hpol & Hw & _ & Hopt).
  - reflexivity.
  - vm_compute. reflexivity.
  - exists d, p. split; [exact Hpol|]. split; [exact Hw|].
    apply (Hopt [UP; UP; RIGHT; RIGHT]); [reflexivity|].
    vm_compute. reflexivity.
Defined.

(** X13: while the head is not on the orb and the orb can be reached over
    valid cells, a tick played by [aStarPolicy] never ends the episode: the
    new head is a cell of the grid off the snake and the barriers, and the
    tick schedules the next one. *)
Theorem aStar_tick_safe fuel g st head body q0 :
  snake st = head :: body →
  head ≠ orb st →
  walk head q0 = orb st →
  validWalk (AStar.isValid (snake st) gridSize (barriers st)) head q0 = true →
  ∃ d,
    AStar.aStarPolicy g (snake st) (orb st) gridSize (barriers st)
      = Returned (d, g)
    ∧ inBounds gridSize (addCell head (offset d)) = true
    ∧ (addCell head (offset d) ∉ snake st)
    ∧ (addCell head (offset d) ∉ barriers st)
    ∧ (∀ next st' g',
         gameLoop AStar.aStarPolicy fuel g st = Returned (next, st', g') →
         next = NextTick
         ∧ hd_error (snake st') = Some (addCell head (offset d)))
    ∧ (addCell head (offset d) ≠ orb st →
       gameLoop AStar.aStarPolicy fuel g st
       = Returned (NextTick,
                   mkState (addCell head (offset d) :: removelast (snake st))
                     (orb st) (barriers st) (score st - 1) (highscore st),
                   g)).
Proof.
  intros Hsn Hne Hq0 Hvq0. rewrite Hsn in Hvq0.
  destruct (search_shortest g (head :: body) (orb st) gridSize (barriers st)
              head (AStar.searchFuel (head :: body) gridSize (barriers st))
              q0 Hne Hq0 Hvq0 ltac:(done))
    as (d & p & Hpol & _ & Hvw & _).
  exists d. cbn [validWalk] in Hvw. apply andb_true_iff in Hvw as [Hv _].
  apply AStar_isValid_spec in Hv as (Hb & Hns & Hnb).
  assert (Hpol' : AStar.aStarPolicy g (snake st) (orb st) gridSize
                    (barriers st) = Returned (d, g)) by by rewrite Hsn.
  rewrite <- Hsn in Hns. split_and!; [done..| |].
  - intros next st' g'.
    assert (Hrl : addCell head (offset d) ∉ removelast (snake st))
      by (intros ?%elem_of_removelast; done).
    destruct (gameLoop_valid_move AStar.aStarPolicy fuel g st head body d g
                Hsn Hpol' Hrl Hnb) as [_ Hmiss].
    by apply Hmiss.
  - intros Hno. by apply (gameLoop_miss _ _ _ _ head body).
Qed.

Lemma aStar_tick_safe_witness :
  ∃ d,
    AStar.aStarPolicy countingDraws (snake openState) (orb openState) gridSize
      (barriers openState) = Returned (d, countingDraws)
    ∧ inBounds gridSize (addCell (5, 5) (offset d)) = true.
Proof.
  destruct (aStar_tick_safe 0 countingDraws openState (5, 5) [(5, 6); (5, 7)]
              [UP; UP; RIGHT; RIGHT])
    as (d & Hpol & Hin & _).
  - reflexivity.
  - discriminate.
  - reflexivity.
  - vm_compute. reflexivity.
  - exists d. split; [exact Hpol | exact Hin].
Defined.

(** * Taking the next tuple out of the open set *)

Lemma sortByKey_cons e l :
  AStar.sortByKey (e :: l) = AStar.insertByKey e (AStar.sortByKey l).
Proof. reflexivity. Qed.

(** X14: [openSet.sort(key=...)] followed by [openSet.pop(0)] takes out the
    first, in the order of the list, of the tuples with the least estimate
    and leaves the others sorted: ties go to the tuple appended earliest. *)
Theorem sortByKey_pop_first l e rest :
  AStar.sortByKey l = e :: rest →
  ∃ l1 l2,
    l = l1 ++ e :: l2
    ∧ (∀ x, x ∈ l1 → AStar.fScore e < AStar.fScore x)
    ∧ (∀ x, x ∈ l2 → AStar.fScore e ≤ AStar.fScore x)
    ∧ rest = AStar.sortByKey (l1 ++ l2).
Proof.
  revert e rest. induction l as [|x l IH]; intros e rest; [done|].
  rewrite sortByKey_cons.
  destruct (AStar.sortByKey l) as [|e' rest'] eqn:Hsort.
  - pose proof (sortByKey_perm l) as Hp. rewrite Hsort in Hp.
    apply Permutation_nil_l in Hp. subst l. cbn [AStar.insertByKey].
    intros Heq. injection Heq as <- <-.
    exists [], []. split_and!; [done| | |done]; by intros ? ?%elem_of_nil.
  - destruct (IH e' rest' eq_refl) as (l1 & l2 & Hl & H1 & H2 & Hrest).
    cbn [AStar.insertByKey].
    destruct (Z.leb_spec (AStar.fScore x) (AStar.fScore e')) as [Hle|Hgt].
    + intros [= <- <-]. exists [], l.
      split_and!; [done| | |by rewrite app_nil_l, Hsort].
      * by intros ? ?%elem_of_nil.
      * intros y Hy. rewrite Hl in Hy.
        apply elem_of_app in Hy as [Hy|[->|Hy]%elem_of_cons].
        -- specialize (H1 y Hy). lia.
        -- done.
        -- specialize (H2 y Hy). lia.
    + intros [= <- <-]. exists (x :: l1), l2. split_and!.
      * by rewrite Hl.
      * intros y [->|Hy]%elem_of_cons; [lia|by apply H1].
      * done.
      * by rewrite Hrest.
Qed.

Lemma sortByKey_pop_first_witness :
  ∃ l1 l2,
    [(3, 0, (0, 0), []); (2, 1, (1, 0), [RIGHT]); (2, 1, (0, 1), [DOWN])]
    = l1 ++ (2, 1, (1, 0), [RIGHT]) :: l2
    ∧ (∀ x, x ∈ l1 → AStar.fScore (2, 1, (1, 0), [RIGHT]) < AStar.fScore x).
Proof.
  destruct (sortByKey_pop_first
              [(3, 0, (0, 0), []); (2, 1, (1, 0), [RIGHT]);
               (2, 1, (0, 1), [DOWN])]
              (2, 1, (1, 0), [RIGHT])
              [(2, 1, (0, 1), [DOWN]); (3, 0, (0, 0), [])])
    as (l1 & l2 & Hl & H1 & _).
  - reflexivity.
  - exists l1, l2. split; [exact Hl | exact H1].
Defined.

(** * Regions of the flood fill *)

Lemma reach_trans free a b c :
  reach free a b → reach free b c → reach free a c.
Proof. intros Hab. induction 1; [done|by apply reach_step]. Qed.

Lemma reach_free free a b :
  free a = true → reach free a b → free b = true.
Proof. intros Ha. by induction 1. Qed.

(** The direction that undoes a step. *)
Lemma step_back c d : ∃ d', addCell (addCell c (offset d)) (offset d') = c.
Proof.
  destruct c as [x y].
  destruct d; [exists DOWN|exists UP|exists RIGHT|exists LEFT];
    unfold addCell; cbn; f_equal; lia.
Qed.

Lemma reach_sym free a b :
  free a = true → reach free a b → reach free b a.
Proof.
  intros Ha. induction 1 as [|c d Hac IH Hfree]; [constructor|].
  eapply reach_trans; [|exact IH].
  destruct (step_back c d) as [d' Hd'].
  rewrite <- Hd' at 2. apply reach_step; [constructor|].
  rewrite Hd'. exact (reach_free free a c Ha Hac).
Qed.

(** X15: [floodFillArea] counts at least the start cell, and it gives the
    same area from two cells of one region: from a valid cell and from any
    cell reachable from it over valid cells. *)
Theorem floodFillArea_region snake barriers gridSize a :
  (∃ n, Hybrid.floodFillArea snake barriers gridSize a = Returned n ∧ 1 ≤ n)
  ∧ ∀ b,
      Hybrid.isValid snake gridSize barriers a = true →
      reach (Hybrid.isValid snake gridSize barriers) a b →
      Hybrid.floodFillArea snake barriers gridSize b
      = Hybrid.floodFillArea snake barriers gridSize a.
Proof.
  destruct (floodFillArea_counts snake barriers gridSize a)
    as (Ra & Hareaa & HRa).
  split.
  - exists (Z.of_nat (size Ra)). split; [done|].
    assert (a ∈ Ra) as Ha by (apply HRa; constructor).
    assert (size Ra ≠ 0%nat); [|lia].
    intros Hz%size_empty_iff. set_solver.
  - intros b Hva Hab.
    destruct (floodFillArea_counts snake barriers gridSize b)
      as (Rb & Hareab & HRb).
    rewrite Hareaa, Hareab. do 2 f_equal.
    assert (Rb = Ra) as ->; [|done].
    apply set_eq. intros c. rewrite HRa, HRb. split.
    + intros Hbc. by eapply reach_trans.
    + intros Hac. eapply reach_trans; [|done]. by apply reach_sym.
Qed.

Lemma floodFillArea_region_witness :
  Hybrid.floodFillArea [] ∅ (5, 5) (2, 1) = Hybrid.floodFillArea [] ∅ (5, 5) (2, 2).
Proof.
  apply (proj2 (floodFillArea_region [] ∅ (5, 5) (2, 2)) (2, 1)).
  - reflexivity.
  - apply (reach_step _ (2, 2) (2, 2) UP); [constructor|reflexivity].
Defined.

(** * Ties between directions *)










